(** * Merkle tree engine of witness-eddsa-merkletree (src/lib/merkletree.js)

    A shallow embedding of the JavaScript module: arrays live in a store
    and are passed by reference, so that the in-place [push] of
    [ensureEven] and [padTree] is visible through every alias, exactly as
    in the source.  Exceptions ([TypeError]) are results, not crashes. *)

From Stdlib Require Import ZArith List Lia Bool ZifyNat.
From stdpp Require Import base list.
Import ListNotations.

Local Open Scope Z_scope.

(** [lia] with division and remainder by constants. *)
Ltac Zify.zify_post_hook ::= Z.to_euclidean_division_equations.

(** ** JavaScript values, store and the computation monad *)

(** The values an array of the module can hold: a bigint, or [undefined]
    (what an out-of-range read gives). *)
Inductive value : Type :=
  | VUndef
  | VBig (z : Z).

(** What a call can throw.  [OutOfFuel] is not a JavaScript exception:
    it marks a recursion cut short by its bound, and
    [generateMerkleRoot_total] shows that it never comes out. *)
Inductive exn : Type :=
  | TypeError
  | OutOfFuel.

Inductive result (A : Type) : Type :=
  | Ok (a : A)
  | Throw (e : exn).
Arguments Ok {A} a.
Arguments Throw {A} e.

(** An array reference is an index in the store. *)
Abbreviation loc := nat (only parsing).
Abbreviation heap := (list (list value)) (only parsing).

(** A computation reads and updates the store and returns or throws; the
    store is kept when it throws, as pushes done before the exception
    stay done. *)
Definition M (A : Type) : Type := heap -> result A * heap.

Definition ret {A} (a : A) : M A := fun h => (Ok a, h).
Definition throw {A} (e : exn) : M A := fun h => (Throw e, h).
Definition bind {A B} (m : M A) (k : A -> M B) : M B :=
  fun h => match m h with
           | (Ok a, h') => k a h'
           | (Throw e, h') => (Throw e, h')
           end.
Definition lift {A} (r : result A) : M A := fun h => (r, h).

Definition rbind {A B} (r : result A) (k : A -> result B) : result B :=
  match r with
  | Ok a => k a
  | Throw e => Throw e
  end.

Declare Scope js_scope.
Delimit Scope js_scope with js.
Notation "x <- m ; k" := (bind m (fun x => k))
  (at level 100, m at next level, right associativity) : js_scope.
Notation "m ;; k" := (bind m (fun _ => k))
  (at level 100, right associativity) : js_scope.
Notation "x <-r m ; k" := (rbind m (fun x => k))
  (at level 100, m at next level, right associativity) : js_scope.

(** [a[i]] for a number [i]: [undefined] outside the array. *)
Definition arr_get (a : list value) (i : Z) : value :=
  if i <? 0 then VUndef else default VUndef (a !! Z.to_nat i).

(** The array behind a reference. *)
Definition readArr (l : loc) : M (list value) :=
  fun h => (Ok (h !!! l), h).

(** [arr.push(v)], in place. *)
Definition pushArr (l : loc) (v : value) : M unit :=
  fun h => (Ok tt, <[l := (h !!! l) ++ [v]]> h).

(** An array literal: a fresh reference. *)
Definition newArr (a : list value) : M loc :=
  fun h => (Ok (length h), h ++ [a]).

(** ** The module's data *)

Definition TREELEVELS : Z := 20.

Module HashDirection.
Definition LEFT : Z := 0.
Definition RIGHT : Z := 1.
End HashDirection.

Record MerkleProofParams : Type := {
  hash : value;
  direction : Z
}.

(** [null] is [None]. *)
Abbreviation MerkleProof := (list MerkleProofParams) (only parsing).

(** The object [{ layers: [...] }]: the outer array holds references to
    the layer arrays.  It is created by [generateMerkleTree] and handed on
    linearly, so it is threaded as a value; the layer arrays themselves
    are shared through the store. *)
Record Tree : Type := { layers : list loc }.

Definition push_layer (t : Tree) (l : loc) : Tree :=
  {| layers := layers t ++ [l] |}.

(** [!v] *)
Definition falsy (v : value) : bool :=
  match v with
  | VUndef => true
  | VBig z => z =? 0
  end.

(** [a === b] *)
Definition strict_eq (a b : value) : bool :=
  match a, b with
  | VUndef, VUndef => true
  | VBig x, VBig y => x =? y
  | _, _ => false
  end.

(** [BigInt(v)] *)
Definition BigInt (v : value) : result Z :=
  match v with
  | VBig z => Ok z
  | VUndef => Throw TypeError
  end.

Fixpoint findIndex_from (i : Z) (a : list value) (leaf : value) : Z :=
  match a with
  | [] => -1
  | h :: t => if strict_eq h leaf then i else findIndex_from (i + 1) t leaf
  end.

(** [a.findIndex(h => h === leaf)] *)
Definition findIndex (a : list value) (leaf : value) : Z :=
  findIndex_from 0 a leaf.

(** Entry 0 of a proof with its direction replaced. *)
Definition set_direction0 (d : Z) (p : option MerkleProof)
  : option MerkleProof :=
  match p with
  | Some (e0 :: rest) => Some ({| hash := hash e0; direction := d |} :: rest)
  | _ => p
  end.

(** The stand-in hash of the test scenario, [H(a, b) = a + b], for runs
    on concrete inputs. *)
Definition stub_hash (args : list Z) : Z :=
  match args with
  | [a; b] => a + b
  | _ => 0
  end.

(** [encodeForCircuit]'s result, [{ pathElements, pathIndices }]: two
    fresh arrays. *)
Record EncodedForCircuit : Type := {
  pathElements : list value;
  pathIndices : list Z
}.

(** The loop of [encodeForCircuit]: [n] iterations are left, [i] is the
    loop variable; [merkleProof[i]] out of range is [undefined], whose
    [.hash] throws. *)
Fixpoint encode_loop (n : nat) (i : nat) (merkleProof : MerkleProof)
    (elems : list value) (indices : list Z) : result EncodedForCircuit :=
  match n with
  | O => Ok {| pathElements := elems; pathIndices := indices |}
  | S n' =>
      match merkleProof !! i with
      | None => Throw TypeError
      | Some path =>
          encode_loop n' (S i) merkleProof
                      (elems ++ [hash path]) (indices ++ [direction path])
      end
  end.

(** [encodeForCircuit(merkleProof)]; [null.length] throws. *)
Definition encodeForCircuit (merkleProof : option MerkleProof)
  : result EncodedForCircuit :=
  match merkleProof with
  | None => Throw TypeError
  | Some p => encode_loop (length p) 0 p [] []
  end.

(** [a == b] on a bigint or [undefined]. *)
Definition loose_eq (a b : value) : bool :=
  match a, b with
  | VUndef, VUndef => true
  | VBig x, VBig y => x =? y
  | _, _ => false
  end.

(** The loop of [findCommitmentByIndex] (the command-line tool): [n]
    iterations are left, [i] is the loop variable. *)
Fixpoint findCommitment_loop (n : nat) (i : nat) (commitment_answer : value)
    (commitments : list value) : Z :=
  match n with
  | O => -1
  | S n' =>
      if loose_eq commitment_answer (arr_get commitments (Z.of_nat i))
      then Z.of_nat i
      else findCommitment_loop n' (S i) commitment_answer commitments
  end.

(** [findCommitmentByIndex(commitment_answer, commitments)]; it only
    reads the array. *)
Definition findCommitmentByIndex (commitment_answer : value)
    (commitments : loc) : M Z :=
  (a <- readArr commitments;
   ret (findCommitment_loop (length a) 0 commitment_answer a))%js.

Section MerkleTree.

(** The Poseidon hash of circomlibjs, an external collaborator. *)
Variable poseidon : list Z -> Z.

Local Open Scope js_scope.

(** index.js: [hashLeaves(left, right)] *)
Definition hashLeaves (left right : value) : result value :=
  l <-r BigInt left;
  r <-r BigInt right;
  Ok (VBig (poseidon [l; r])).

(** [ensureEven(leaves)] *)
Definition ensureEven (leaves : loc) : M unit :=
  a <- readArr leaves;
  if negb (Z.rem (Z.of_nat (length a)) 2 =? 0)
  then pushArr leaves (arr_get a (Z.of_nat (length a) - 1))
  else ret tt.

(** The loop of [generateMerkleRoot]: [i] runs over the even indices and
    [leaves[i + 1]] is [undefined] when the length is odd. *)
Fixpoint combine_pairs (a : list value) : result (list value) :=
  match a with
  | [] => Ok []
  | [x] => n <-r hashLeaves x VUndef; Ok [n]
  | x :: y :: rest =>
      n <-r hashLeaves x y;
      r <-r combine_pairs rest;
      Ok (n :: r)
  end.

(** [generateMerkleRoot(leaves, tree)], the recursion bounded by [fuel].
    [combinedHashes] is reachable from nowhere else until it is pushed on
    [tree.layers], so it enters the store filled. *)
Fixpoint generateMerkleRoot_rec (fuel : nat) (leaves : loc) (tree : Tree)
  : M (loc * Tree) :=
  match fuel with
  | O => throw OutOfFuel
  | S fuel' =>
      a <- readArr leaves;
      if (length a =? 0)%nat then
        e <- newArr []; ret (e, tree)
      else
        ensureEven leaves;;
        a' <- readArr leaves;
        combinedHashes <- lift (combine_pairs a');
        c <- newArr combinedHashes;
        let tree' := push_layer tree c in
        if (length combinedHashes =? 1)%nat then ret (c, tree')
        else generateMerkleRoot_rec fuel' c tree'
  end.

(** Every call at least halves the layer, so its length is fuel enough. *)
Definition generateMerkleRoot (leaves : loc) (tree : Tree) : M (loc * Tree) :=
  a <- readArr leaves;
  generateMerkleRoot_rec (S (length a)) leaves tree.

(** The loop of [padTree]: [n] iterations are left and [i] is the loop
    variable. *)
Fixpoint padTree_loop (n : nat) (i : Z) (tree : Tree) : M Tree :=
  match n with
  | O => ret tree
  | S n' =>
      if i <? 0 then throw TypeError else
      match layers tree !! Z.to_nat i with
      | None => throw TypeError
      | Some li =>
          a <- readArr li;
          let lastRoot := arr_get a 0 in
          pushArr li lastRoot;;
          newRoot <- lift (hashLeaves lastRoot lastRoot);
          c <- newArr [newRoot];
          padTree_loop n' (i + 1) (push_layer tree c)
      end
  end.

(** [padTree(tree)]: returns [{ tree, root }]. *)
Definition padTree (tree : Tree) : M (Tree * value) :=
  let i0 := Z.of_nat (length (layers tree)) - 1 in
  tree' <- padTree_loop (Z.to_nat (TREELEVELS - 1 - i0)) i0 tree;
  match last (layers tree') with
  | None => throw TypeError
  | Some lr => a <- readArr lr; ret (tree', arr_get a 0)
  end.

(** [generateMerkleTree(leaves)] *)
Definition generateMerkleTree (leaves : loc) : M (Tree * value) :=
  let tree := {| layers := [leaves] |} in
  rt <- generateMerkleRoot leaves tree;
  padTree (snd rt).

(** [getLeafNodeDirectionInMerkleTree(leaf, merkleTree)] *)
Definition getLeafNodeDirectionInMerkleTree (leaf : value)
    (merkleTree : list loc) : M Z :=
  match merkleTree !! 0%nat with
  | None => throw TypeError
  | Some l0 =>
      a <- readArr l0;
      let hashIndex := findIndex a leaf in
      ret (if Z.rem hashIndex 2 =? 0
           then HashDirection.LEFT else HashDirection.RIGHT)
  end.

(** The loop of [generateMerkleProof]: [n] iterations are left. *)
Fixpoint proof_loop (n : nat) (level : nat) (hashIndex : Z) (tree : Tree)
    (merkleProof : MerkleProof) : M MerkleProof :=
  match n with
  | O => ret merkleProof
  | S n' =>
      let isLeftChild := Z.rem hashIndex 2 =? 0 in
      let siblingDirection :=
        if isLeftChild then HashDirection.RIGHT else HashDirection.LEFT in
      let siblingIndex :=
        if isLeftChild then hashIndex + 1 else hashIndex - 1 in
      match layers tree !! level with
      | None => throw TypeError
      | Some ll =>
          a <- readArr ll;
          let siblingNode :=
            {| hash := arr_get a siblingIndex;
               direction := siblingDirection |} in
          proof_loop n' (S level) (hashIndex / 2) tree
                     (merkleProof ++ [siblingNode])
      end
  end.

(** [generateMerkleProof(leaf, leaves, cachedTree)].  [leaves] is an
    array reference, hence truthy. *)
Definition generateMerkleProof (leaf : value) (leaves : loc)
    (cachedTree : option Tree) : M (option MerkleProof) :=
  a <- readArr leaves;
  if falsy leaf || (length a =? 0)%nat then ret None
  else
    tree <- match cachedTree with
            | Some t => ret t
            | None => tr <- generateMerkleTree leaves; ret (fst tr)
            end;
    d <- getLeafNodeDirectionInMerkleTree leaf (layers tree);
    let merkleProof := [{| hash := leaf; direction := d |}] in
    match layers tree !! 0%nat with
    | None => throw TypeError
    | Some l0 =>
        a0 <- readArr l0;
        let hashIndex := findIndex a0 leaf in
        p <- proof_loop (length (layers tree) - 1) 0 hashIndex tree
                        merkleProof;
        ret (Some p)
    end.

(** The loop of [getMerkleRootFromMerkleProof]: [n] iterations are left,
    [i] is the loop variable. *)
Fixpoint root_loop (n : nat) (i : nat) (merkleProof : MerkleProof)
    (accumulator : value) : result value :=
  match n with
  | O => Ok accumulator
  | S n' =>
      match merkleProof !! i with
      | None => Throw TypeError
      | Some node =>
          if direction node =? HashDirection.RIGHT then
            h <-r hashLeaves accumulator (hash node);
            root_loop n' (S i) merkleProof h
          else
            h <-r hashLeaves (hash node) accumulator;
            root_loop n' (S i) merkleProof h
      end
  end.

(** [getMerkleRootFromMerkleProof(merkleProof)] *)
Definition getMerkleRootFromMerkleProof (merkleProof : option MerkleProof)
  : result value :=
  match merkleProof with
  | None => Throw TypeError
  | Some p =>
      match p !! 0%nat with
      | None => Throw TypeError
      | Some e0 => root_loop (length p - 1) 1 p (hash e0)
      end
  end.

(** ** Mathematical description of a built tree

    What the store holds once a tree is built, as plain lists of
    integers.  These are used to state and prove the properties; the code
    above does not depend on them. *)

Definition H (a b : Z) : Z := poseidon [a; b].

(** Hashes of the consecutive pairs of a layer. *)
Fixpoint pair_hashes (a : list Z) : list Z :=
  match a with
  | x :: y :: rest => H x y :: pair_hashes rest
  | _ => []
  end.

(** A layer with its last element repeated when its length is odd. *)
Definition even_pad (a : list Z) : list Z :=
  if Nat.even (length a) then a else a ++ [List.last a 0].

(** The layers after [s] reduction steps from layer [c]: every layer but
    the last is stored padded. *)
Fixpoint build_layers (s : nat) (c : list Z) : list (list Z) :=
  match s with
  | O => [c]
  | S s' => even_pad c :: build_layers s' (pair_hashes (even_pad c))
  end.

(** Reduction steps done on a layer of [n] elements when [d] more layers
    are needed to reach [TREELEVELS]. *)
Definition tree_steps (n d : nat) : nat :=
  Nat.max (Nat.max 1 (Nat.log2_up n)) d.

(** The store after a build from the array [cur]: [cur] holds the first
    layer and the others are appended in order. *)
Definition layout (h : heap) (cur : loc) (B : list (list Z)) : heap :=
  <[cur := VBig <$> hd [] B]> h ++ (fmap (M:=list) VBig <$> tail B).

(** The entries a proof gets from the layers [ls], bottom up. *)
Fixpoint sibling_path (ls : list (list value)) (hashIndex : Z)
  : MerkleProof :=
  match ls with
  | [] => []
  | a :: rest =>
      {| hash := arr_get a (if Z.rem hashIndex 2 =? 0
                            then hashIndex + 1 else hashIndex - 1);
         direction := if Z.rem hashIndex 2 =? 0
                      then HashDirection.RIGHT else HashDirection.LEFT |}
      :: sibling_path rest (hashIndex / 2)
  end.

(** One round of the verifier, the exception carried along. *)
Definition fold_step (acc : result value) (e : MerkleProofParams)
  : result value :=
  a <-r acc;
  if direction e =? HashDirection.RIGHT
  then hashLeaves a (hash e)
  else hashLeaves (hash e) a.

(** The verifier as the specification words it (4.3), over Elements
    and typed Directions: start from the leaf and fold the sibling entries
    in order. *)
Inductive Direction : Type := LEFT | RIGHT.

Definition rootOf_step (accumulator : Z) (entry : Z * Direction) : Z :=
  match snd entry with
  | RIGHT => H accumulator (fst entry)
  | LEFT => H (fst entry) accumulator
  end.

Definition rootOf_spec (leaf : Z) (entries : list (Z * Direction)) : Z :=
  fold_left rootOf_step entries leaf.

(** A specification-level entry as the JavaScript object. *)
Definition encode_direction (d : Direction) : Z :=
  match d with
  | LEFT => HashDirection.LEFT
  | RIGHT => HashDirection.RIGHT
  end.

Definition encode_entry (entry : Z * Direction) : MerkleProofParams :=
  {| hash := VBig (fst entry); direction := encode_direction (snd entry) |}.

(** The root [r] paired with itself [k] times, as [padTree] does. *)
Fixpoint self_hash (k : nat) (r : Z) : Z :=
  match k with
  | O => r
  | S k' => self_hash k' (H r r)
  end.

(** ** Arithmetic and list facts *)

Lemma list_pair_ind {A} (P : list A -> Prop) :
  P [] -> (forall x, P [x]) -> (forall x y l, P l -> P (x :: y :: l)) ->
  forall l, P l.
Proof.
  intros H0 H1 H2.
  assert (forall l, P l /\ forall x, P (x :: l)) as Hboth.
  { induction l as [|y l [IH1 IH2]]; split; auto. }
  intros l. apply Hboth.
Qed.

Lemma rem2_even (n : nat) : (Z.rem (Z.of_nat n) 2 =? 0) = Nat.even n.
Proof.
  destruct (Nat.even n) eqn:E.
  - apply Nat.even_spec in E. destruct E as [k ->]. apply Z.eqb_eq. lia.
  - apply Z.eqb_neq.
    assert (Nat.odd n = true) as Ho
      by (rewrite <- Nat.negb_even, E; reflexivity).
    apply Nat.odd_spec in Ho. destruct Ho as [k ->]. lia.
Qed.

Lemma even_mod2 (n : nat) : Nat.even n = (n mod 2 =? 0)%nat.
Proof.
  destruct (Nat.even n) eqn:E; symmetry.
  - apply Nat.even_spec in E. destruct E as [k ->]. apply Nat.eqb_eq. lia.
  - apply Nat.eqb_neq.
    assert (Nat.odd n = true) as Ho
      by (rewrite <- Nat.negb_even, E; reflexivity).
    apply Nat.odd_spec in Ho. destruct Ho as [k ->]. lia.
Qed.

Lemma length_even_pad (c : list Z) :
  length (even_pad c) = (length c + length c mod 2)%nat.
Proof.
  unfold even_pad. rewrite even_mod2.
  destruct (Nat.eqb_spec (length c mod 2) 0) as [E|E]; cbv iota.
  - lia.
  - rewrite length_app. cbn [length]. lia.
Qed.

Lemma even_pad_even (c : list Z) : Nat.even (length (even_pad c)) = true.
Proof. rewrite even_mod2, length_even_pad. apply Nat.eqb_eq. lia. Qed.

Lemma even_pad_idem (c : list Z) : even_pad (even_pad c) = even_pad c.
Proof. unfold even_pad at 1. now rewrite even_pad_even. Qed.

Lemma even_pad_lookup (c : list Z) (i : nat) (x : Z) :
  c !! i = Some x -> even_pad c !! i = Some x.
Proof.
  intros Hi. unfold even_pad. destruct (Nat.even (length c)); [done|].
  now apply lookup_app_l_Some.
Qed.

Lemma even_pad_nil_inv (c : list Z) : even_pad c = [] -> c = [].
Proof.
  intros E. apply (f_equal length) in E. rewrite length_even_pad in E.
  destruct c; [done|simpl in E; lia].
Qed.

Lemma length_pair_hashes (a : list Z) :
  length (pair_hashes a) = (length a / 2)%nat.
Proof.
  induction a as [| x | x y l IH] using list_pair_ind; [done..|].
  simpl pair_hashes. simpl length. rewrite IH. lia.
Qed.

Lemma pair_hashes_lookup (a : list Z) (j : nat) (x y : Z) :
  a !! (2 * j)%nat = Some x -> a !! (2 * j + 1)%nat = Some y ->
  pair_hashes a !! j = Some (H x y).
Proof.
  revert a. induction j as [|j IH]; intros a Hx Hy.
  - destruct a as [|x' [|y' l]]; simpl in *; congruence.
  - destruct a as [|x' [|y' l]]; [done..|].
    replace (2 * S j)%nat with (S (S (2 * j))) in Hx by lia.
    replace (2 * S j + 1)%nat with (S (S (2 * j + 1))) in Hy by lia.
    simpl in *. now apply IH.
Qed.

Lemma combine_pairs_vals (a : list Z) :
  Nat.even (length a) = true ->
  combine_pairs (VBig <$> a) = Ok (VBig <$> pair_hashes a).
Proof.
  induction a as [| x | x y l IH] using list_pair_ind; intros E.
  - done.
  - done.
  - simpl in E. change (VBig <$> x :: y :: l)
      with (VBig x :: VBig y :: (VBig <$> l)).
    simpl. rewrite (IH E). done.
Qed.

Lemma arr_get_vals (c : list Z) (i : nat) (x : Z) :
  c !! i = Some x -> arr_get (VBig <$> c) (Z.of_nat i) = VBig x.
Proof.
  intros Hi. unfold arr_get.
  destruct (Z.ltb_spec (Z.of_nat i) 0) as [?|_]; [lia|].
  now rewrite Nat2Z.id, list_lookup_fmap, Hi.
Qed.

Lemma arr_get_neg (a : list value) (i : Z) : i < 0 -> arr_get a i = VUndef.
Proof.
  intros Hi. unfold arr_get.
  destruct (Z.ltb_spec i 0); [done|lia].
Qed.

Lemma lookup_last_default (c : list Z) :
  c <> [] -> c !! (length c - 1)%nat = Some (List.last c 0).
Proof.
  intros Hc. destruct (exists_last Hc) as (l & x & ->).
  rewrite List.last_last, length_app. simpl.
  replace (length l + 1 - 1)%nat with (length l) by lia.
  apply list_lookup_middle. done.
Qed.

Lemma log2_up_half (n : nat) :
  (3 <= n)%nat -> Nat.log2_up n = S (Nat.log2_up ((n + 1) / 2)).
Proof.
  intros Hn.
  assert (1 < (n + 1) / 2)%nat as Hm by lia.
  pose proof (Nat.log2_up_spec _ Hm) as [Hlo Hhi].
  pose proof (Nat.log2_up_pos _ Hm) as Hk.
  destruct (Nat.log2_up ((n + 1) / 2)) as [|k] eqn:Ek; [lia|].
  apply Nat.log2_up_unique; [lia|].
  cbn [Nat.pred] in *. rewrite !Nat.pow_succ_r' in *.
  generalize dependent (2 ^ k)%nat. intros P ? ?. lia.
Qed.

Lemma tree_steps_base (n d : nat) :
  (1 <= n)%nat -> ((n + 1) / 2 = 1)%nat -> tree_steps n d = S (d - 1).
Proof.
  intros Hn Hm. unfold tree_steps.
  assert (n = 1 \/ n = 2)%nat as [-> | ->] by lia.
  - rewrite Nat.log2_up_1. lia.
  - rewrite Nat.log2_up_2. lia.
Qed.

Lemma tree_steps_rec (n d : nat) :
  (1 <= n)%nat -> ((n + 1) / 2 <> 1)%nat ->
  tree_steps n d = S (tree_steps ((n + 1) / 2) (d - 1)).
Proof.
  intros Hn Hm. unfold tree_steps.
  rewrite (log2_up_half n) by lia.
  assert (0 < Nat.log2_up ((n + 1) / 2))%nat by (apply Nat.log2_up_pos; lia).
  lia.
Qed.

Lemma tree_steps_fits (n d : nat) :
  (1 <= n)%nat -> (1 <= d)%nat -> (Nat.log2_up n <= d)%nat ->
  tree_steps n d = d.
Proof. unfold tree_steps. lia. Qed.

Lemma tree_steps_pos (n d : nat) : (1 <= tree_steps n d)%nat.
Proof. unfold tree_steps. lia. Qed.

Lemma tree_steps_even_pad (c : list Z) (d : nat) :
  c <> [] -> tree_steps (length (even_pad c)) d = tree_steps (length c) d.
Proof.
  intros Hc. assert (1 <= length c)%nat by (destruct c; [done|simpl; lia]).
  rewrite length_even_pad.
  destruct (Nat.eq_dec ((length c + 1) / 2)%nat 1%nat) as [E|E].
  - rewrite (tree_steps_base (length c)) by lia.
    rewrite tree_steps_base; lia.
  - rewrite (tree_steps_rec (length c)) by lia.
    rewrite (tree_steps_rec (length c + _)) by lia.
    do 2 f_equal. lia.
Qed.

(** ** The layers of a tree *)

Lemma build_layers_length (s : nat) (c : list Z) :
  length (build_layers s c) = S s.
Proof. revert c. induction s as [|s IH]; intros c; simpl; auto. Qed.

Lemma build_layers_last_single (n : nat) (c : list Z) :
  length c = 1%nat -> exists root, last (build_layers n c) = Some [root].
Proof.
  revert c. induction n as [|n IH]; intros c Hc.
  - destruct c as [|x [|? ?]]; try done. exists x. done.
  - destruct c as [|x [|? ?]]; try done.
    destruct (IH [H x x] eq_refl) as [root Hroot].
    exists root. simpl. rewrite last_cons.
    change (pair_hashes (even_pad [x])) with [H x x]. now rewrite Hroot.
Qed.

Lemma build_layers_last_S (s : nat) (c : list Z) :
  last (build_layers (S s) c)
  = last (build_layers s (pair_hashes (even_pad c))).
Proof.
  simpl. rewrite last_cons.
  destruct (last (build_layers s (pair_hashes (even_pad c)))) eqn:E; [done|].
  apply last_None in E. apply (f_equal length) in E.
  rewrite build_layers_length in E. done.
Qed.

Lemma build_layers_even_pad (s : nat) (c : list Z) :
  build_layers (S s) (even_pad c) = build_layers (S s) c.
Proof. simpl. now rewrite even_pad_idem. Qed.

(** ** The store after a build *)

Lemma length_layout (h : list (list value)) cur B :
  length (layout h cur B) = (length h + length (tail B))%nat.
Proof. unfold layout. now rewrite length_app, length_insert, length_fmap. Qed.

Lemma layout_lookup_0 (h : list (list value)) cur B :
  (cur < length h)%nat -> layout h cur B !! cur = Some (VBig <$> hd [] B).
Proof.
  intros Hc. unfold layout.
  rewrite lookup_app_l by (now rewrite length_insert).
  now apply list_lookup_insert_eq.
Qed.

Lemma layout_lookup_S (h : list (list value)) cur B k :
  layout h cur B !! (length h + k)%nat = fmap (M:=list) VBig <$> B !! S k.
Proof.
  unfold layout.
  rewrite lookup_app_r by (rewrite length_insert; lia).
  rewrite length_insert, list_lookup_fmap.
  replace (length h + k - length h)%nat with k by lia.
  destruct B; [by rewrite lookup_nil|done].
Qed.

Lemma layout_lookup_other (h : list (list value)) cur B l' :
  (l' < length h)%nat -> l' <> cur -> layout h cur B !! l' = h !! l'.
Proof.
  intros Hl Hne. unfold layout.
  rewrite lookup_app_l by (now rewrite length_insert).
  now apply list_lookup_insert_ne.
Qed.

Lemma layout_step (h1 : list (list value)) x B :
  B <> [] ->
  layout (h1 ++ [x]) (length h1) B = h1 ++ (fmap (M:=list) VBig <$> B).
Proof.
  intros HB. destruct B as [|b0 rest]; [done|]. unfold layout. simpl.
  replace (length h1) with (length h1 + 0)%nat at 1 by lia.
  rewrite insert_app_r. simpl. now rewrite <- app_assoc.
Qed.

Lemma layout_0 (h : list (list value)) cur c :
  h !! cur = Some (VBig <$> c) -> layout h cur [c] = h.
Proof.
  intros Hc. unfold layout. simpl. rewrite app_nil_r.
  now apply list_insert_id.
Qed.

Lemma build_layers_neq_nil s c : build_layers s c <> [].
Proof. destruct s; done. Qed.

(** ** Running the builder *)

Lemma hashLeaves_big (a b : Z) :
  hashLeaves (VBig a) (VBig b) = Ok (VBig (H a b)).
Proof. reflexivity. Qed.

Lemma ensureEven_vals (h : list (list value)) (l : nat) (c : list Z) :
  h !! l = Some (VBig <$> c) -> c <> [] ->
  ensureEven l h = (Ok tt, <[l := VBig <$> even_pad c]> h).
Proof.
  intros Hl Hc. unfold ensureEven, bind, readArr.
  rewrite (list_lookup_total_correct _ _ _ Hl), length_fmap, rem2_even.
  unfold even_pad. destruct (Nat.even (length c)); cbn [negb].
  - unfold ret. now rewrite list_insert_id.
  - unfold pushArr. rewrite (list_lookup_total_correct _ _ _ Hl).
    replace (Z.of_nat (length c) - 1) with (Z.of_nat (length c - 1)).
    2:{ destruct c; [done|simpl length; lia]. }
    rewrite (arr_get_vals c _ _ (lookup_last_default c Hc)).
    now rewrite fmap_app.
Qed.

Lemma padTree_loop_spec (n : nat) :
  forall (h : list (list value)) (pre : list nat) (ll : nat) (r i : Z),
    i = Z.of_nat (length pre) -> h !! ll = Some [VBig r] ->
    padTree_loop n i {| layers := pre ++ [ll] |} h
    = (Ok {| layers := pre ++ ll :: seq (length h) n |},
       layout h ll (build_layers n [r])).
Proof.
  induction n as [|n IH]; intros h pre ll r i -> Hll.
  - cbn [padTree_loop build_layers seq]. unfold ret.
    now rewrite (layout_0 h ll [r]).
  - cbn [padTree_loop layers].
    destruct (Z.ltb_spec (Z.of_nat (length pre)) 0) as [?|_]; [lia|].
    rewrite Nat2Z.id, list_lookup_middle by done.
    unfold bind at 1. unfold readArr at 1.
    rewrite (list_lookup_total_correct _ _ _ Hll).
    change (arr_get [VBig r] 0) with (VBig r).
    unfold bind at 1. unfold pushArr at 1.
    rewrite (list_lookup_total_correct _ _ _ Hll).
    unfold bind at 1. unfold lift at 1. rewrite hashLeaves_big.
    unfold bind at 1. unfold newArr at 1. rewrite length_insert.
    unfold push_layer. cbn [layers].
    assert (ll < length h)%nat as Hlt by (eapply lookup_lt_Some; eauto).
    rewrite (IH _ (pre ++ [ll]) (length h) (H r r)).
    + rewrite length_app, length_insert. cbn [length].
      rewrite <- app_assoc. cbn [app].
      replace (length h + 1)%nat with (S (length h)) by lia.
      rewrite cons_seq. f_equal.
      replace (length h) with (length (<[ll:=[VBig r] ++ [VBig r]]> h)) at 1
        by apply length_insert.
      rewrite layout_step by apply build_layers_neq_nil.
      unfold layout. cbn [build_layers hd tail]. done.
    + rewrite length_app. cbn [length]. lia.
    + replace (length h) with (length (<[ll:=[VBig r] ++ [VBig r]]> h))
        by apply length_insert.
      now rewrite list_lookup_middle.
Qed.

Lemma layout_cons (h : list (list value)) (cur : nat) (c : list Z) (s : nat) :
  layout (<[cur := VBig <$> even_pad c]> h
            ++ [VBig <$> pair_hashes (even_pad c)])
         (length h) (build_layers s (pair_hashes (even_pad c)))
  = layout h cur (build_layers (S s) c).
Proof.
  replace (length h)
    with (length (<[cur := VBig <$> even_pad c]> h)) at 1
    by apply length_insert.
  rewrite layout_step by apply build_layers_neq_nil.
  unfold layout. cbn [build_layers hd tail]. done.
Qed.

Lemma layout_read_last (h : list (list value)) (cur : nat)
    (B : list (list Z)) (pre : list nat) (lastB : list Z) :
  (cur < length h)%nat -> last B = Some lastB ->
  exists lr,
    last (pre ++ cur :: seq (length h) (length B - 1)) = Some lr
    /\ layout h cur B !! lr = Some (VBig <$> lastB).
Proof.
  intros Hcur HB. destruct B as [|b0 rest]; [done|].
  cbn [length]. replace (S (length rest) - 1)%nat with (length rest) by lia.
  destruct rest as [|x rest' _] using rev_ind.
  - exists cur. cbn [length seq]. rewrite last_snoc. split; [done|].
    rewrite layout_lookup_0 by done. cbn [hd].
    rewrite last_singleton in HB. congruence.
  - exists (length h + length rest')%nat.
    rewrite length_app. cbn [length].
    replace (length rest' + 1)%nat with (S (length rest')) by lia.
    rewrite seq_S, app_comm_cons, app_assoc, last_snoc. split; [done|].
    rewrite layout_lookup_S.
    rewrite app_comm_cons, last_snoc in HB. injection HB as ->.
    now rewrite app_comm_cons, list_lookup_middle.
Qed.

Lemma padTree_spec (h : list (list value)) (pre : list nat) (ll : nat)
    (r : Z) :
  h !! ll = Some [VBig r] ->
  let n := (19 - length pre)%nat in
  exists root,
    last (build_layers n [r]) = Some [root]
    /\ padTree {| layers := pre ++ [ll] |} h
       = (Ok ({| layers := pre ++ ll :: seq (length h) n |}, VBig root),
          layout h ll (build_layers n [r])).
Proof.
  intros Hll n.
  destruct (build_layers_last_single n [r] eq_refl) as [root Hroot].
  exists root. split; [done|].
  assert (ll < length h)%nat as Hlt by (eapply lookup_lt_Some; eauto).
  unfold padTree. cbn [layers]. rewrite length_app. cbn [length].
  replace (Z.to_nat (TREELEVELS - 1 - (Z.of_nat (length pre + 1) - 1)))
    with n by (unfold TREELEVELS; lia).
  unfold bind at 1.
  rewrite (padTree_loop_spec n h pre ll r) by (done || lia).
  cbn [layers].
  destruct (layout_read_last h ll (build_layers n [r]) pre [root] Hlt Hroot)
    as (lr & Hlast & Hread).
  rewrite build_layers_length in Hlast.
  replace (S n - 1)%nat with n in Hlast by lia.
  rewrite Hlast. unfold bind, readArr, ret.
  now rewrite (list_lookup_total_correct _ _ _ Hread).
Qed.

Lemma build_spec (fuel : nat) :
  forall (h : list (list value)) (cur : nat) (pre : list nat) (c : list Z),
    h !! cur = Some (VBig <$> c) -> c <> [] -> (length c <= fuel)%nat ->
    let s := tree_steps (length c) (19 - length pre) in
    exists root,
      last (build_layers s c) = Some [root]
      /\ bind (generateMerkleRoot_rec fuel cur {| layers := pre ++ [cur] |})
              (fun rt => padTree (snd rt)) h
         = (Ok ({| layers := pre ++ cur :: seq (length h) s |}, VBig root),
            layout h cur (build_layers s c)).
Proof.
  induction fuel as [|fuel IH]; intros h cur pre c Hcur Hc Hfuel s.
  { destruct c; [done|simpl in Hfuel; lia]. }
  assert (1 <= length c)%nat as Hlen by (destruct c; [done|simpl; lia]).
  assert (cur < length h)%nat as Hlt by (eapply lookup_lt_Some; eauto).
  set (c' := pair_hashes (even_pad c)).
  assert (length c' = ((length c + 1) / 2)%nat) as Hlen'.
  { unfold c'. rewrite length_pair_hashes, length_even_pad. lia. }
  set (h1 := <[cur := VBig <$> even_pad c]> h).
  assert (h1 !! cur = Some (VBig <$> even_pad c)) as Hcur1
    by (now apply list_lookup_insert_eq).
  cbn [generateMerkleRoot_rec]. unfold bind, readArr, lift, newArr.
  rewrite (list_lookup_total_correct _ _ _ Hcur), length_fmap.
  destruct (Nat.eqb_spec (length c) 0) as [?|_]; [lia|].
  rewrite (ensureEven_vals h cur c Hcur Hc). fold h1.
  rewrite (list_lookup_total_correct _ _ _ Hcur1).
  rewrite (combine_pairs_vals _ (even_pad_even c)). fold c'.
  rewrite length_fmap. unfold push_layer. cbn [layers].
  assert (length h1 = length h) as Hlen1 by apply length_insert.
  rewrite Hlen1.
  destruct (Nat.eqb_spec (length c') 1) as [E1|E1].
  - (* the natural root is reached: padding takes over *)
    destruct c' as [|r [|? ?]] eqn:Ec'; try done.
    unfold ret. cbn [snd].
    destruct (padTree_spec (h1 ++ [[VBig r]]) (pre ++ [cur]) (length h) r)
      as (root & Hroot & Hpad).
    { rewrite <- Hlen1. now apply list_lookup_middle. }
    exists root. change (VBig <$> [r]) with [VBig r]. rewrite Hpad.
    rewrite !length_app, Hlen1. cbn [length].
    rewrite length_app in Hroot. cbn [length] in Hroot.
    assert (s = S (19 - (length pre + 1))) as ->.
    { unfold s. rewrite tree_steps_base by lia. lia. }
    rewrite build_layers_last_S. fold c'. rewrite Ec'. split; [done|].
    rewrite <- app_assoc. cbn [app].
    replace (length h + 1)%nat with (S (length h)) by lia.
    rewrite cons_seq. f_equal.
    change [VBig r] with (VBig <$> [r]). rewrite <- Ec'.
    apply layout_cons.
  - (* another level of reduction *)
    destruct (IH (h1 ++ [VBig <$> c']) (length h) (pre ++ [cur]) c')
      as (root & Hroot & Hrun).
    { rewrite <- Hlen1. now apply list_lookup_middle. }
    { intros E0. rewrite E0 in Hlen'. cbn [length] in Hlen'. lia. }
    { lia. }
    exists root. unfold bind in Hrun. rewrite Hrun.
    rewrite !length_app, Hlen1. cbn [length].
    rewrite length_app in Hroot. cbn [length] in Hroot.
    assert (s = S (tree_steps (length c') (19 - (length pre + 1)))) as ->.
    { unfold s. rewrite tree_steps_rec by lia. rewrite Hlen'.
      do 2 f_equal. lia. }
    rewrite build_layers_last_S. fold c'. split; [done|].
    rewrite <- app_assoc. cbn [app].
    replace (length h + 1)%nat with (S (length h)) by lia.
    rewrite cons_seq. f_equal. apply layout_cons.
Qed.

Lemma generateMerkleTree_spec (h : list (list value)) (l : nat)
    (L : list Z) :
  h !! l = Some (VBig <$> L) -> L <> [] ->
  let s := tree_steps (length L) 19 in
  exists root,
    last (build_layers s L) = Some [root]
    /\ generateMerkleTree l h
       = (Ok ({| layers := l :: seq (length h) s |}, VBig root),
          layout h l (build_layers s L)).
Proof.
  intros Hl HL s.
  destruct (build_spec (S (length L)) h l [] L Hl HL) as (root & Hroot & Hrun);
    [lia|].
  exists root. split; [exact Hroot|].
  unfold generateMerkleTree, generateMerkleRoot.
  unfold bind at 1 2. unfold readArr.
  rewrite (list_lookup_total_correct _ _ _ Hl), length_fmap.
  unfold bind in Hrun. cbn [app] in Hrun. rewrite Hrun. done.
Qed.

Lemma tree_layers_lookup (h : list (list value)) (l : nat)
    (B : list (list Z)) (k : nat) (c : list Z) :
  (l < length h)%nat -> B !! k = Some c ->
  exists lc,
    (l :: seq (length h) (length B - 1)) !! k = Some lc
    /\ layout h l B !! lc = Some (VBig <$> c).
Proof.
  intros Hl Hk. destruct k as [|k].
  - exists l. split; [done|]. rewrite layout_lookup_0 by done.
    destruct B; [done|]. simpl in Hk. cbn [hd]. congruence.
  - exists (length h + k)%nat. split.
    + change ((l :: ?t) !! S k) with (t !! k).
      apply lookup_seq_lt. apply lookup_lt_Some in Hk. lia.
    + rewrite layout_lookup_S, Hk. done.
Qed.

(** ** Looking a leaf up *)

Lemma findIndex_from_found (c : list Z) (x : Z) :
  In x c ->
  forall i, exists idx,
    c !! idx = Some x
    /\ findIndex_from i (VBig <$> c) (VBig x) = i + Z.of_nat idx.
Proof.
  induction c as [|y c IH]; intros Hin i; [done|].
  change (VBig <$> y :: c) with (VBig y :: (VBig <$> c)).
  cbn [findIndex_from strict_eq].
  destruct (Z.eqb_spec y x) as [->|Hne].
  - exists 0%nat. split; [done|lia].
  - destruct Hin as [?|Hin]; [done|].
    destruct (IH Hin (i + 1)) as (idx & Hidx & Hf).
    exists (S idx). split; [done|]. rewrite Hf. lia.
Qed.

Lemma findIndex_from_absent (c : list Z) (x : Z) :
  ~ In x c -> forall i, findIndex_from i (VBig <$> c) (VBig x) = -1.
Proof.
  induction c as [|y c IH]; intros Hin i; [done|].
  change (VBig <$> y :: c) with (VBig y :: (VBig <$> c)).
  cbn [findIndex_from strict_eq].
  destruct (Z.eqb_spec y x) as [->|Hne].
  - exfalso. apply Hin. now left.
  - apply IH. intros Hx. apply Hin. now right.
Qed.

Lemma In_even_pad (c : list Z) (x : Z) : In x (even_pad c) <-> In x c.
Proof.
  unfold even_pad. destruct (Nat.even (length c)) eqn:E; [done|].
  rewrite in_app_iff. split; [|tauto].
  intros [Hx|Hx]; [done|]. destruct Hx as [<-|[]].
  destruct c as [|y c]; [discriminate E|].
  destruct (exists_last (l:=y :: c)) as (l' & z & El); [done|].
  rewrite El, List.last_last. apply in_app_iff. right. now left.
Qed.

(** ** The proof loop and the verifier loop *)

Lemma proof_loop_spec (tree : Tree) (h : list (list value)) :
  forall (ls : list (list value)) (level : nat) (idx : Z)
         (acc : list MerkleProofParams),
    (forall k a, ls !! k = Some a ->
       exists lc, layers tree !! (level + k)%nat = Some lc
                  /\ h !! lc = Some a) ->
    proof_loop (length ls) level idx tree acc h
    = (Ok (acc ++ sibling_path ls idx), h).
Proof.
  induction ls as [|a ls IH]; intros level idx acc Hls.
  - cbn. unfold ret. now rewrite app_nil_r.
  - cbn [length proof_loop sibling_path].
    destruct (Hls 0%nat a eq_refl) as (lc & Hlc & Ha).
    rewrite Nat.add_0_r in Hlc. rewrite Hlc.
    unfold bind, readArr. rewrite (list_lookup_total_correct _ _ _ Ha).
    rewrite IH.
    + now rewrite <- app_assoc.
    + intros k a' Hk. destruct (Hls (S k) a' Hk) as (lc' & ? & ?).
      exists lc'. split; [|done].
      now replace (S level + k)%nat with (level + S k)%nat by lia.
Qed.

Lemma proof_loop_heap (tree : Tree) (n : nat) :
  forall (level : nat) (idx : Z) (acc : list MerkleProofParams)
         (h : list (list value)),
    snd (proof_loop n level idx tree acc h) = h.
Proof.
  induction n as [|n IH]; intros level idx acc h; [done|].
  cbn [proof_loop]. destruct (layers tree !! level); [|done].
  unfold bind, readArr. apply IH.
Qed.

Lemma fold_step_throw (rest : list MerkleProofParams) (e : exn) :
  fold_left fold_step rest (Throw e) = Throw e.
Proof. induction rest; [done|]. cbn. done. Qed.

Lemma root_loop_fold (rest : list MerkleProofParams) :
  forall (pre : list MerkleProofParams) (acc : value),
    root_loop (length rest) (length pre) (pre ++ rest) acc
    = fold_left fold_step rest (Ok acc).
Proof.
  induction rest as [|e rest IH]; intros pre acc; [done|].
  cbn [length root_loop fold_left].
  rewrite list_lookup_middle by done.
  specialize (IH (pre ++ [e])). rewrite length_app, <- app_assoc in IH.
  cbn [length app] in IH.
  replace (length pre + 1)%nat with (S (length pre)) in IH by lia.
  unfold fold_step at 2. cbn [rbind].
  destruct (direction e =? HashDirection.RIGHT).
  - destruct (hashLeaves acc (hash e)) as [v|err]; cbn [rbind].
    + now apply IH.
    + now rewrite fold_step_throw.
  - destruct (hashLeaves (hash e) acc) as [v|err]; cbn [rbind].
    + now apply IH.
    + now rewrite fold_step_throw.
Qed.

Lemma length_sibling_path (ls : list (list value)) :
  forall idx, length (sibling_path ls idx) = length ls.
Proof. induction ls; intros idx; cbn; auto. Qed.

(** ** Folding a sibling path reaches the top layer *)

Lemma even_pad_sibling_even (c : list Z) (j : nat) (x : Z) :
  even_pad c !! (2 * j)%nat = Some x ->
  exists y, even_pad c !! (2 * j + 1)%nat = Some y.
Proof.
  intros Hx. apply lookup_lt_Some in Hx.
  pose proof (even_pad_even c) as E. rewrite even_mod2 in E.
  apply Nat.eqb_eq in E.
  destruct (lookup_lt_is_Some_2 (even_pad c) (2 * j + 1)) as [y Hy]; [lia|].
  now exists y.
Qed.

Lemma even_pad_sibling_odd (c : list Z) (j : nat) (x : Z) :
  even_pad c !! (2 * j + 1)%nat = Some x ->
  exists y, even_pad c !! (2 * j)%nat = Some y.
Proof.
  intros Hx. apply lookup_lt_Some in Hx.
  destruct (lookup_lt_is_Some_2 (even_pad c) (2 * j)) as [y Hy]; [lia|].
  now exists y.
Qed.

Lemma climb (s : nat) :
  forall (c : list Z) (idx : nat) (x : Z),
    c !! idx = Some x ->
    exists lastl k v,
      last (build_layers s c) = Some lastl
      /\ lastl !! k = Some v
      /\ fold_left fold_step
           (sibling_path (take s (fmap (M:=list) VBig <$> build_layers s c))
                         (Z.of_nat idx))
           (Ok (VBig x))
         = Ok (VBig v).
Proof.
  induction s as [|s IH]; intros c idx x Hx.
  - exists c, idx, x. done.
  - apply even_pad_lookup in Hx.
    set (c' := pair_hashes (even_pad c)).
    assert (exists y, c' !! (idx / 2)%nat = Some y
              /\ fold_step (Ok (VBig x))
                   {| hash := arr_get (VBig <$> even_pad c)
                        (if Z.rem (Z.of_nat idx) 2 =? 0
                         then Z.of_nat idx + 1 else Z.of_nat idx - 1);
                      direction :=
                        if Z.rem (Z.of_nat idx) 2 =? 0
                        then HashDirection.RIGHT else HashDirection.LEFT |}
                 = Ok (VBig y)) as (y & Hy & Hstep).
    { rewrite rem2_even. destruct (Nat.even idx) eqn:E.
      - apply Nat.even_spec in E. destruct E as [j ->].
        replace (2 * j / 2)%nat with j by lia.
        destruct (even_pad_sibling_even c j x Hx) as [y Hy].
        exists (H x y). split.
        + now apply pair_hashes_lookup.
        + replace (Z.of_nat (2 * j) + 1) with (Z.of_nat (2 * j + 1)) by lia.
          unfold fold_step. cbn [rbind hash direction].
          now rewrite (arr_get_vals _ _ _ Hy).
      - assert (Nat.odd idx = true) as Ho
          by (rewrite <- Nat.negb_even, E; reflexivity).
        apply Nat.odd_spec in Ho. destruct Ho as [j ->].
        replace ((2 * j + 1) / 2)%nat with j by lia.
        destruct (even_pad_sibling_odd c j x Hx) as [y Hy].
        exists (H y x). split.
        + now apply pair_hashes_lookup.
        + replace (Z.of_nat (2 * j + 1) - 1) with (Z.of_nat (2 * j)) by lia.
          unfold fold_step. cbn [rbind hash direction].
          now rewrite (arr_get_vals _ _ _ Hy). }
    destruct (IH c' (idx / 2)%nat y Hy) as (lastl & k & v & Hlast & Hk & Hf).
    exists lastl, k, v. rewrite build_layers_last_S. fold c'.
    split; [done|]. split; [done|].
    cbn [build_layers]. fold c'. rewrite fmap_cons. cbn [take firstn].
    cbn [sibling_path fold_left]. rewrite Hstep.
    replace (Z.of_nat idx / 2) with (Z.of_nat (idx / 2)) by lia.
    exact Hf.
Qed.

(** ** Running the proof generator *)

Lemma generateMerkleProof_run (h : list (list value)) (l : nat)
    (L : list Z) (x : Z) :
  h !! l = Some (VBig <$> L) -> L <> [] -> x <> 0 ->
  let s := tree_steps (length L) 19 in
  let idx := findIndex (VBig <$> even_pad L) (VBig x) in
  generateMerkleProof (VBig x) l None h
  = (Ok (Some
       ({| hash := VBig x;
           direction := if Z.rem idx 2 =? 0
                        then HashDirection.LEFT else HashDirection.RIGHT |}
        :: sibling_path
             (take s (fmap (M:=list) VBig <$> build_layers s L)) idx)),
     layout h l (build_layers s L)).
Proof.
  intros Hl HL Hx s idx.
  destruct (generateMerkleTree_spec h l L Hl HL) as (root & Hroot & Hrun).
  fold s in Hroot, Hrun.
  assert (l < length h)%nat as Hlt by (eapply lookup_lt_Some; eauto).
  assert (layout h l (build_layers s L) !! l = Some (VBig <$> even_pad L))
    as Hl0.
  { rewrite layout_lookup_0 by done.
    pose proof (tree_steps_pos (length L) 19) as Hs. fold s in Hs.
    destruct s; [lia|done]. }
  unfold generateMerkleProof, getLeafNodeDirectionInMerkleTree.
  unfold bind, readArr, ret.
  rewrite (list_lookup_total_correct _ _ _ Hl), length_fmap.
  cbn [falsy]. destruct (Z.eqb_spec x 0) as [?|_]; [done|].
  destruct (Nat.eqb_spec (length L) 0) as [E|_].
  { destruct L; [done|discriminate E]. }
  cbn [orb]. rewrite Hrun. cbn [fst layers lookup list_lookup].
  rewrite (list_lookup_total_correct _ _ _ Hl0). fold idx.
  cbn [length]. rewrite length_seq.
  replace (S s - 1)%nat with s by lia.
  set (ls := take s (fmap (M:=list) VBig <$> build_layers s L)).
  assert (length ls = s) as Hls.
  { unfold ls. rewrite length_take, length_fmap, build_layers_length. lia. }
  rewrite <- Hls at 1. rewrite proof_loop_spec; [done|].
  intros k a Hk. apply lookup_take_Some in Hk as [Hk _].
  apply list_lookup_fmap_Some in Hk as (c & -> & Hk).
  destruct (tree_layers_lookup h l _ k c Hlt Hk) as (lc & Hlc & Hc).
  rewrite build_layers_length in Hlc.
  replace (S s - 1)%nat with s in Hlc by lia.
  exists lc. split; [exact Hlc|done].
Qed.

Lemma findIndex_absent_path (ls : list (list value)) :
  sibling_path ls (-1)
  = replicate (length ls)
      {| hash := VUndef; direction := HashDirection.LEFT |}.
Proof.
  induction ls as [|a ls IH]; [done|].
  cbn [sibling_path length replicate].
  change (Z.rem (-1) 2 =? 0) with false. cbv iota.
  change (-1 / 2) with (-1). rewrite IH.
  now rewrite arr_get_neg by lia.
Qed.

Lemma getMerkleRootFromMerkleProof_fold (e0 : MerkleProofParams)
    (rest : list MerkleProofParams) :
  getMerkleRootFromMerkleProof (Some (e0 :: rest))
  = fold_left fold_step rest (Ok (hash e0)).
Proof.
  unfold getMerkleRootFromMerkleProof.
  cbn [lookup list_lookup].
  replace (length (e0 :: rest) - 1)%nat with (length rest)
    by (cbn [length]; lia).
  apply (root_loop_fold rest [e0]).
Qed.

Lemma fold_step_encoded (entries : list (Z * Direction)) :
  forall a : Z,
    fold_left fold_step (encode_entry <$> entries) (Ok (VBig a))
    = Ok (VBig (rootOf_spec a entries)).
Proof.
  unfold rootOf_spec.
  induction entries as [|[x d] entries IH]; intros a; [done|].
  rewrite fmap_cons. cbn [fold_left]. rewrite <- IH. f_equal.
  destruct d; reflexivity.
Qed.

(** ** Fuel: the recursion of [generateMerkleRoot] always ends *)

Lemma combine_pairs_length (a r : list value) :
  combine_pairs a = Ok r -> (2 * length r = length a)%nat.
Proof.
  revert r. induction a as [| x | x y l IH] using list_pair_ind; intros r.
  - intros [= <-]. done.
  - cbn. unfold hashLeaves. destruct (BigInt x); done.
  - cbn [combine_pairs]. destruct (hashLeaves x y) as [n|]; [|done].
    cbn [rbind]. destruct (combine_pairs l) as [r'|]; [|done].
    cbn [rbind]. intros [= <-]. cbn [length]. specialize (IH r' eq_refl). lia.
Qed.

Lemma generateMerkleRoot_rec_fuel (fuel : nat) :
  forall (h : list (list value)) (l : nat) (t : Tree),
    (length (h !!! l) <= fuel)%nat ->
    fst (generateMerkleRoot_rec (S fuel) l t h) <> Throw OutOfFuel.
Proof.
  induction fuel as [|fuel IH]; intros h l t Hlen.
  - cbn [generateMerkleRoot_rec]. unfold bind at 1. unfold readArr at 1.
    destruct (Nat.eqb_spec (length (h !!! l)) 0) as [_|?]; [done|lia].
  - cbn [generateMerkleRoot_rec]. unfold bind at 1. unfold readArr at 1.
    destruct (Nat.eqb_spec (length (h !!! l)) 0) as [_|Hne]; [done|].
    unfold bind at 1.
    destruct (ensureEven l h) as [[[]|e] h1] eqn:Eeven.
    2:{ unfold ensureEven, bind, readArr, pushArr, ret in Eeven.
        destruct (negb _) in Eeven; discriminate Eeven. }
    unfold bind at 1. unfold readArr at 1.
    unfold bind at 1. unfold lift at 1.
    destruct (combine_pairs (h1 !!! l)) as [r|e] eqn:Ecomb.
    2:{ cbn. intros [= ->].
        clear -Ecomb. revert Ecomb. generalize (h1 !!! l).
        induction l0 as [| x | x y l0 IHl] using list_pair_ind.
        - done.
        - cbn [combine_pairs]. unfold hashLeaves.
          destruct x; cbn; done.
        - cbn [combine_pairs]. unfold hashLeaves at 1.
          destruct x; [done|]. destruct y; [done|].
          cbn [rbind BigInt]. destruct (combine_pairs l0) as [?|e']; [done|].
          cbn [rbind]. intros [= ->]. now apply IHl. }
    unfold bind at 1. unfold newArr at 1.
    destruct (Nat.eqb_spec (length r) 1) as [_|Hr]; [done|].
    apply IH. rewrite list_lookup_total_middle by done.
    apply combine_pairs_length in Ecomb.
    assert (length (h1 !!! l) <= S (length (h !!! l)))%nat; [|lia].
    unfold ensureEven, bind, readArr, pushArr, ret in Eeven.
    destruct (negb _) in Eeven; injection Eeven as <-.
    + destruct (decide (l < length h)%nat) as [Hl|Hl].
      * rewrite list_lookup_total_insert_eq by done.
        rewrite length_app. cbn [length]. lia.
      * rewrite list_insert_ge by lia. lia.
    + lia.
Qed.

Lemma generateMerkleRoot_total (h : list (list value)) (l : nat) (t : Tree) :
  fst (generateMerkleRoot l t h) <> Throw OutOfFuel.
Proof.
  unfold generateMerkleRoot, bind, readArr.
  now apply generateMerkleRoot_rec_fuel.
Qed.

(** ** The padded region of a tree *)

Lemma log2_up_le_Z (n m : nat) :
  (1 <= n)%nat -> Z.of_nat n <= 2 ^ Z.of_nat m -> (Nat.log2_up n <= m)%nat.
Proof.
  intros Hn Hle. apply Nat.log2_up_le_pow2; [lia|].
  apply Nat2Z.inj_le. now rewrite Nat2Z.inj_pow.
Qed.

Lemma log2_up_gt_Z (n m : nat) :
  2 ^ Z.of_nat m < Z.of_nat n -> (m < Nat.log2_up n)%nat.
Proof.
  intros Hlt.
  assert (0 < 2 ^ Z.of_nat m) by (apply Z.pow_pos_nonneg; lia).
  apply Nat.log2_up_lt_pow2; [lia|].
  apply Nat2Z.inj_lt. now rewrite Nat2Z.inj_pow.
Qed.

Lemma build_layers_single_region (s : nat) :
  forall (r : Z) (k : nat),
    (k < s)%nat ->
    exists r' tl,
      build_layers s [r] !! k = Some [r'; r']
      /\ build_layers s [r] !! S k = Some (H r' r' :: tl).
Proof.
  induction s as [|s IH]; intros r k Hk; [lia|].
  cbn [build_layers]. change (pair_hashes (even_pad [r])) with [H r r].
  destruct k as [|k].
  - exists r. destruct s as [|s].
    + exists []. done.
    + exists [H r r]. done.
  - destruct (IH (H r r) k) as (r' & tl & Hk1 & Hk2); [lia|].
    exists r', tl. done.
Qed.

Lemma build_layers_pad_region (s : nat) :
  forall (c : list Z) (k : nat),
    c <> [] ->
    (Nat.max 1 (Nat.log2_up (length c)) <= k)%nat -> (k < s)%nat ->
    exists r tl,
      build_layers s c !! k = Some [r; r]
      /\ build_layers s c !! S k = Some (H r r :: tl).
Proof.
  induction s as [|s IH]; intros c k Hc Hm Hk; [lia|].
  assert (1 <= length c)%nat as Hlen by (destruct c; [done|simpl; lia]).
  destruct k as [|k]; [lia|].
  cbn [build_layers]. set (c' := pair_hashes (even_pad c)).
  assert (length c' = ((length c + 1) / 2)%nat) as Hlen'.
  { unfold c'. rewrite length_pair_hashes, length_even_pad. lia. }
  change ((even_pad c :: ?t) !! S ?i) with (t !! i).
  destruct (Nat.eq_dec (length c') 1%nat) as [E1|E1].
  - destruct c' as [|r [|? ?]]; try done.
    apply build_layers_single_region. lia.
  - apply IH; [|  |lia].
    + intros E0. rewrite E0 in Hlen'. cbn [length] in Hlen'. lia.
    + rewrite (log2_up_half (length c)) in Hm by lia.
      rewrite <- Hlen' in Hm.
      assert (0 < Nat.log2_up (length c'))%nat
        by (apply Nat.log2_up_pos; lia).
      lia.
Qed.

(** ** Runs that the claims single out *)

Lemma generateMerkleProof_absent (h : list (list value)) (l : nat)
    (L : list Z) (x : Z) :
  h !! l = Some (VBig <$> L) -> L <> [] -> ~ In x L -> x <> 0 ->
  generateMerkleProof (VBig x) l None h
  = (Ok (Some
       ({| hash := VBig x; direction := HashDirection.RIGHT |}
        :: replicate (tree_steps (length L) 19)
             {| hash := VUndef; direction := HashDirection.LEFT |})),
     layout h l (build_layers (tree_steps (length L) 19) L)).
Proof.
  intros Hl HL Hin Hx.
  rewrite (generateMerkleProof_run h l L x Hl HL Hx).
  unfold findIndex. rewrite findIndex_from_absent
    by (now rewrite In_even_pad).
  rewrite findIndex_absent_path.
  rewrite length_take, length_fmap, build_layers_length.
  replace (Nat.min (tree_steps (length L) 19) (S (tree_steps (length L) 19)))
    with (tree_steps (length L) 19) by lia.
  done.
Qed.

Lemma padTree_loop_undefined (n : nat) (i : Z) (t : Tree)
    (h : list (list value)) (li : nat) :
  0 <= i -> layers t !! Z.to_nat i = Some li -> h !! li = Some [] ->
  padTree_loop (S n) i t h = (Throw TypeError, <[li := [VUndef]]> h).
Proof.
  intros Hi Hli Hh. cbn [padTree_loop].
  destruct (Z.ltb_spec i 0) as [?|_]; [lia|]. rewrite Hli.
  unfold bind, readArr, pushArr, lift.
  now rewrite (list_lookup_total_correct _ _ _ Hh).
Qed.

Lemma generateMerkleTree_empty (h : list (list value)) (l : nat) :
  h !! l = Some [] ->
  generateMerkleTree l h = (Throw TypeError, <[l := [VUndef]]> (h ++ [[]])).
Proof.
  intros Hl.
  assert (l < length h)%nat as Hlt by (eapply lookup_lt_Some; eauto).
  unfold generateMerkleTree, generateMerkleRoot.
  unfold bind at 1 2. unfold readArr at 1.
  rewrite (list_lookup_total_correct _ _ _ Hl).
  cbn [length generateMerkleRoot_rec].
  unfold bind at 1. unfold readArr at 1.
  rewrite (list_lookup_total_correct _ _ _ Hl).
  cbn [length Nat.eqb]. unfold bind at 1. unfold newArr, ret. cbn [snd].
  unfold padTree. cbn [layers length].
  change (Z.to_nat (TREELEVELS - 1 - (Z.of_nat 1 - 1))) with (S 18).
  change (Z.of_nat 1 - 1) with 0.
  unfold bind at 1.
  rewrite (padTree_loop_undefined 18 0 _ (h ++ [[]]) l); [done|lia|done|].
  now rewrite lookup_app_l.
Qed.

Lemma generateMerkleProof_cached_heap (x : value) (l : nat) (t : Tree)
    (h : list (list value)) :
  snd (generateMerkleProof x l (Some t) h) = h.
Proof.
  unfold generateMerkleProof, getLeafNodeDirectionInMerkleTree.
  unfold bind at 1. unfold readArr at 1.
  destruct (falsy x || (length (h !!! l) =? 0)%nat); [done|].
  unfold bind at 1 2. unfold ret at 1.
  destruct (layers t !! 0%nat) as [l0|]; [|done].
  unfold bind at 1 2. unfold readArr at 1 2. unfold ret at 1.
  unfold bind.
  pose proof (proof_loop_heap t (length (layers t) - 1) 0
    (findIndex (h !!! l0) x)
    [{| hash := x;
        direction := if Z.rem (findIndex (h !!! l0) x) 2 =? 0
                     then HashDirection.LEFT else HashDirection.RIGHT |}]
    h) as Hh.
  destruct (proof_loop _ _ _ _ _ h) as [[p|e] h']; cbn in Hh |- *; done.
Qed.

(** * The claims *)

(** C1, amended: round-trip membership.  For every leaf sequence [L] and
    every leaf [x] that occurs in [L] and is not the bigint zero,
    [generateMerkleProof(x, L, null)] returns a proof, and the root
    reconstructed from it by [getMerkleRootFromMerkleProof] is the root
    of [generateMerkleTree(L)], both for the tree built from the same [L]
    and for the tree built after the proof call has padded [L] in
    place. *)
Theorem C1_round_trip_membership (h : list (list value)) (l : nat)
    (L : list Z) (x : Z) :
  h !! l = Some (VBig <$> L) -> In x L -> x <> 0 ->
  exists p h1 tree tree' root h2,
    generateMerkleProof (VBig x) l None h = (Ok (Some p), h1)
    /\ getMerkleRootFromMerkleProof (Some p) = Ok root
    /\ generateMerkleTree l h = (Ok (tree, root), h1)
    /\ generateMerkleTree l h1 = (Ok (tree', root), h2).
Proof.
  intros Hl Hin Hx.
  assert (L <> []) as HL by (intros ->; destruct Hin).
  pose proof (generateMerkleProof_run h l L x Hl HL Hx) as Hrun.
  destruct (generateMerkleTree_spec h l L Hl HL) as (root & Hroot & Htree).
  cbv zeta in Hrun, Hroot, Htree.
  set (s := tree_steps (length L) 19) in *.
  assert (exists s', s = S s') as [s' Es].
  { pose proof (tree_steps_pos (length L) 19) as Hpos. fold s in Hpos.
    destruct s; [lia|eauto]. }
  assert (l < length h)%nat as Hlt by (eapply lookup_lt_Some; eauto).
  set (h1 := layout h l (build_layers s L)) in *.
  assert (h1 !! l = Some (VBig <$> even_pad L)) as Hl1.
  { unfold h1. rewrite layout_lookup_0 by done. now rewrite Es. }
  assert (even_pad L <> []) as HL1 by (intros E; now apply even_pad_nil_inv in E).
  destruct (generateMerkleTree_spec h1 l (even_pad L) Hl1 HL1)
    as (root' & Hroot' & Htree').
  cbv zeta in Hroot', Htree'.
  rewrite tree_steps_even_pad in Hroot', Htree' by done. fold s in Hroot', Htree'.
  rewrite Es, build_layers_even_pad, <- Es in Hroot', Htree'.
  assert (root' = root) as -> by congruence.
  destruct (findIndex_from_found (even_pad L) x) with (i := 0)
    as (i & Hi & Hfind); [now apply In_even_pad|].
  fold (findIndex (VBig <$> even_pad L) (VBig x)) in Hfind.
  rewrite Z.add_0_l in Hfind. rewrite Hfind in Hrun.
  destruct (climb s (even_pad L) i x Hi) as (lastl & k & v & Hlast & Hk & Hf).
  rewrite Es, build_layers_even_pad, <- Es in Hlast, Hf.
  assert (lastl = [root]) as -> by congruence.
  assert (v = root) as ->.
  { destruct k; cbn in Hk; [congruence|done]. }
  eexists _, h1, _, _, (VBig root), _.
  split; [exact Hrun|]. split; [|split; [exact Htree|exact Htree']].
  rewrite getMerkleRootFromMerkleProof_fold. exact Hf.
Qed.

(** C2, at the failing input: a leaf that does not occur in the leaves
    is not reported.  [generateMerkleProof(5n, [1n, 2n], null)] returns
    an array of twenty entries built from the index [-1]: the leaf marked
    RIGHT, then nineteen entries whose hash is [undefined]. *)
Theorem C2_absent_leaf_not_reported :
  fst (generateMerkleProof (VBig 5) 0%nat None [[VBig 1; VBig 2]])
  = Ok (Some
      ({| hash := VBig 5; direction := HashDirection.RIGHT |}
       :: replicate 19
            {| hash := VUndef; direction := HashDirection.LEFT |})).
Proof.
  rewrite (generateMerkleProof_absent [[VBig 1; VBig 2]] 0 [1; 2] 5).
  - reflexivity.
  - reflexivity.
  - discriminate.
  - cbn. lia.
  - lia.
Qed.

(** C3, amended: for every leaf sequence of at least one and at most
    2^19 leaves, [generateMerkleTree] returns a tree of exactly
    [TREELEVELS] = 20 layers; layer 0 is the leaves array, the final
    layer holds the root alone, and from the layer [m] at which pairwise
    reduction has reached a single root (any [m >= 1] with at most [2^m]
    leaves) every layer [k < 19] is the pair [[r; r]] and layer [k + 1]
    starts with [H(r, r)]. *)
Theorem C3_fixed_depth (h : list (list value)) (l : nat) (L : list Z) :
  h !! l = Some (VBig <$> L) -> L <> [] -> Z.of_nat (length L) <= 2 ^ 19 ->
  exists tree root h',
    generateMerkleTree l h = (Ok (tree, VBig root), h')
    /\ Z.of_nat (length (layers tree)) = TREELEVELS
    /\ layers tree !! 0%nat = Some l
    /\ (exists lr, last (layers tree) = Some lr
                   /\ h' !! lr = Some [VBig root])
    /\ (forall m k : nat,
          (1 <= m)%nat -> Z.of_nat (length L) <= 2 ^ Z.of_nat m ->
          (m <= k < 19)%nat ->
          exists lk lk' r tl,
            layers tree !! k = Some lk
            /\ layers tree !! S k = Some lk'
            /\ h' !! lk = Some [VBig r; VBig r]
            /\ h' !! lk' = Some (VBig (H r r) :: tl)).
Proof.
  intros Hl HL Hsize.
  assert (1 <= length L)%nat as Hlen by (destruct L; [done|simpl; lia]).
  assert (l < length h)%nat as Hlt by (eapply lookup_lt_Some; eauto).
  destruct (generateMerkleTree_spec h l L Hl HL) as (root & Hroot & Htree).
  cbv zeta in Hroot, Htree.
  rewrite (tree_steps_fits (length L) 19) in Hroot, Htree
    by (try apply (log2_up_le_Z _ 19); done || lia).
  exists {| layers := l :: seq (length h) 19 |}, root,
    (layout h l (build_layers 19 L)).
  split; [exact Htree|]. cbn [layers].
  split; [cbn [length]; now rewrite length_seq|].
  split; [done|]. split.
  - destruct (layout_read_last h l (build_layers 19 L) [] [root] Hlt Hroot)
      as (lr & Hlast & Hread).
    rewrite build_layers_length in Hlast. exists lr. done.
  - intros m k Hm Hfit Hk.
    destruct (build_layers_pad_region 19 L k HL) as (r & tl & Hk0 & Hk1);
      [|lia|].
    { pose proof (log2_up_le_Z (length L) m Hlen Hfit). lia. }
    destruct (tree_layers_lookup h l _ k _ Hlt Hk0) as (lk & Hlk & Hc).
    destruct (tree_layers_lookup h l _ (S k) _ Hlt Hk1) as (lk' & Hlk' & Hc').
    rewrite build_layers_length in Hlk, Hlk'.
    exists lk, lk', r, (VBig <$> tl). done.
Qed.

(** C4, amended: fixed proof length.  For every leaf sequence of at most
    2^19 leaves and every leaf [x] that occurs in it and is not the
    bigint zero, [generateMerkleProof(x, L, null)] returns a proof of
    exactly [TREELEVELS] = 20 entries: the leaf entry, then 19 sibling
    entries. *)
Theorem C4_fixed_proof_length (h : list (list value)) (l : nat)
    (L : list Z) (x : Z) :
  h !! l = Some (VBig <$> L) -> In x L -> x <> 0 ->
  Z.of_nat (length L) <= 2 ^ 19 ->
  exists e0 siblings h',
    generateMerkleProof (VBig x) l None h = (Ok (Some (e0 :: siblings)), h')
    /\ hash e0 = VBig x
    /\ length siblings = 19%nat
    /\ Z.of_nat (length (e0 :: siblings)) = TREELEVELS.
Proof.
  intros Hl Hin Hx Hsize.
  assert (L <> []) as HL by (intros ->; destruct Hin).
  assert (1 <= length L)%nat as Hlen by (destruct L; [done|simpl; lia]).
  pose proof (generateMerkleProof_run h l L x Hl HL Hx) as Hrun.
  cbv zeta in Hrun.
  rewrite (tree_steps_fits (length L) 19) in Hrun
    by (try apply (log2_up_le_Z _ 19); done || lia).
  eexists _, _, _. split; [exact Hrun|]. split; [done|].
  assert (length (sibling_path
            (take 19 (fmap (M:=list) VBig <$> build_layers 19 L))
            (findIndex (VBig <$> even_pad L) (VBig x))) = 19%nat) as Hsib.
  { rewrite length_sibling_path, length_take, length_fmap,
      build_layers_length. lia. }
  split; [exact Hsib|]. cbn [length]. rewrite Hsib. done.
Qed.

(** Beyond 2^19 leaves the tree and the proofs are longer than
    [TREELEVELS]. *)
Lemma generateMerkleTree_oversized (h : list (list value)) (l : nat)
    (L : list Z) :
  h !! l = Some (VBig <$> L) -> 2 ^ 19 < Z.of_nat (length L) ->
  exists tree root h',
    generateMerkleTree l h = (Ok (tree, root), h')
    /\ (20 < length (layers tree))%nat.
Proof.
  intros Hl Hsize.
  assert (L <> []) as HL by (intros ->; cbn in Hsize; lia).
  destruct (generateMerkleTree_spec h l L Hl HL) as (root & _ & Htree).
  eexists _, _, _. split; [exact Htree|].
  cbn [layers length]. rewrite length_seq. unfold tree_steps.
  pose proof (log2_up_gt_Z (length L) 19 Hsize). lia.
Qed.

Lemma generateMerkleProof_oversized (h : list (list value)) (l : nat)
    (L : list Z) (x : Z) :
  h !! l = Some (VBig <$> L) -> x <> 0 -> 2 ^ 19 < Z.of_nat (length L) ->
  exists p h',
    generateMerkleProof (VBig x) l None h = (Ok (Some p), h')
    /\ (20 < length p)%nat.
Proof.
  intros Hl Hx Hsize.
  assert (L <> []) as HL by (intros ->; cbn in Hsize; lia).
  pose proof (generateMerkleProof_run h l L x Hl HL Hx) as Hrun.
  eexists _, _. split; [exact Hrun|].
  cbn [length]. rewrite length_sibling_path, length_take, length_fmap,
    build_layers_length. unfold tree_steps.
  pose proof (log2_up_gt_Z (length L) 19 Hsize). lia.
Qed.

(** C5, at the failing input: [generateMerkleTree([])] does not return
    a degenerate tree.  [padTree] reads [undefined] from the empty layer,
    pushes it on the caller's array and [hashLeaves(undefined, undefined)]
    throws a [TypeError]. *)
Theorem C5_empty_tree_throws :
  generateMerkleTree 0%nat [[]] = (Throw TypeError, [[VUndef]; []]).
Proof. now rewrite (generateMerkleTree_empty [[]] 0). Qed.

(** C6: verifier folding.  For every proof of length at least 1 (a leaf
    entry followed by any sibling entries, each an Element with a
    Direction), [getMerkleRootFromMerkleProof] returns the left fold that
    starts from the leaf entry's hash and takes [H(acc, hash)] at a RIGHT
    entry and [H(hash, acc)] at a LEFT entry. *)
Theorem C6_verifier_folding (leaf : Z) (d0 : Z)
    (entries : list (Z * Direction)) :
  getMerkleRootFromMerkleProof
    (Some ({| hash := VBig leaf; direction := d0 |}
           :: (encode_entry <$> entries)))
  = Ok (VBig (rootOf_spec leaf entries)).
Proof.
  rewrite getMerkleRootFromMerkleProof_fold. cbn [hash].
  apply fold_step_encoded.
Qed.

(** C7, amended: the leaves array is padded in place.  For every
    non-empty leaf sequence [L], [generateMerkleTree(L)] leaves [L]
    unchanged when its length is even and appends a copy of its last
    element when its length is odd; every other array of the caller is
    unchanged.  [generateMerkleProof(x, L, null)] has the same effect
    when [x] is truthy and none when [x] is falsy, and
    [generateMerkleProof(x, L, t)] with a cached tree [t] changes
    nothing. *)
Theorem C7_leaves_padded_in_place (h : list (list value)) (l : nat)
    (L : list Z) :
  h !! l = Some (VBig <$> L) -> L <> [] ->
  exists r h',
    generateMerkleTree l h = (Ok r, h')
    /\ (Nat.even (length L) = true -> h' !! l = Some (VBig <$> L))
    /\ (Nat.even (length L) = false ->
        h' !! l = Some (VBig <$> L ++ [List.last L 0]))
    /\ (forall l', (l' < length h)%nat -> l' <> l -> h' !! l' = h !! l')
    /\ (forall x : value,
          snd (generateMerkleProof x l None h) = if falsy x then h else h')
    /\ (forall (x : value) (t : Tree),
          snd (generateMerkleProof x l (Some t) h) = h).
Proof.
  intros Hl HL.
  assert (l < length h)%nat as Hlt by (eapply lookup_lt_Some; eauto).
  destruct (generateMerkleTree_spec h l L Hl HL) as (root & Hroot & Htree).
  cbv zeta in Hroot, Htree.
  set (s := tree_steps (length L) 19) in *.
  assert (exists s', s = S s') as [s' Es].
  { pose proof (tree_steps_pos (length L) 19) as Hpos. fold s in Hpos.
    destruct s; [lia|eauto]. }
  assert (layout h l (build_layers s L) !! l = Some (VBig <$> even_pad L))
    as Hl0.
  { rewrite layout_lookup_0 by done. now rewrite Es. }
  eexists _, _. split; [exact Htree|].
  split; [|split; [|split; [|split]]].
  - intros E. rewrite Hl0. unfold even_pad. now rewrite E.
  - intros E. rewrite Hl0. unfold even_pad. now rewrite E.
  - intros l' Hl' Hne. now apply layout_lookup_other.
  - intros [|x]; cbn [falsy].
    + unfold generateMerkleProof, bind, readArr. done.
    + destruct (Z.eqb_spec x 0) as [->|Hx].
      * unfold generateMerkleProof, bind, readArr. done.
      * now rewrite (generateMerkleProof_run h l L x Hl HL Hx).
  - intros x t. apply generateMerkleProof_cached_heap.
Qed.

(** C8: the direction stored in entry 0 of a proof is never consulted.
    For every proof [p] (also [null] or empty, where both calls throw),
    replacing [p[0].direction] by any number leaves
    [getMerkleRootFromMerkleProof(p)] unchanged. *)
Theorem C8_leaf_direction_unused (p : option (list MerkleProofParams))
    (d : Z) :
  getMerkleRootFromMerkleProof (set_direction0 d p)
  = getMerkleRootFromMerkleProof p.
Proof.
  destruct p as [[|e0 rest]|]; try reflexivity.
  cbn [set_direction0]. now rewrite !getMerkleRootFromMerkleProof_fold.
Qed.

(** C9: odd-layer padding determinism.  For all [a], [b], [c], building
    from [[a, b, c]] first makes the leaves array [[a, b, c, c]], hashes
    it into [[H(a,b), H(c,c)]], and returns the same root as building from
    [[a, b, c, c]]. *)
Theorem C9_odd_layer_padding (h h2 : list (list value)) (l l2 : nat)
    (a b c : Z) :
  h !! l = Some (VBig <$> [a; b; c]) ->
  h2 !! l2 = Some (VBig <$> [a; b; c; c]) ->
  exists t1 t2 root h' h2',
    generateMerkleTree l h = (Ok (t1, root), h')
    /\ generateMerkleTree l2 h2 = (Ok (t2, root), h2')
    /\ h' !! l = Some (VBig <$> [a; b; c; c])
    /\ h' !! length h = Some (VBig <$> [H a b; H c c]).
Proof.
  intros Hl Hl2.
  assert (l < length h)%nat as Hlt by (eapply lookup_lt_Some; eauto).
  destruct (generateMerkleTree_spec h l [a; b; c] Hl) as (root & Hroot & Htree);
    [done|].
  destruct (generateMerkleTree_spec h2 l2 [a; b; c; c] Hl2)
    as (root2 & Hroot2 & Htree2); [done|].
  cbv zeta in Hroot, Htree, Hroot2, Htree2.
  change (tree_steps (length [a; b; c]) 19) with 19%nat in Hroot, Htree.
  change (tree_steps (length [a; b; c; c]) 19) with 19%nat in Hroot2, Htree2.
  change [a; b; c; c] with (even_pad [a; b; c]) in Hroot2, Htree2.
  rewrite build_layers_even_pad in Hroot2, Htree2.
  assert (root2 = root) as -> by congruence.
  eexists _, _, _, _, _. split; [exact Htree|]. split; [exact Htree2|].
  split.
  - now rewrite layout_lookup_0.
  - replace (length h) with (length h + 0)%nat at 1 by lia.
    now rewrite layout_lookup_S.
Qed.

(** C10: for every non-empty leaf sequence [L] that contains the bigint
    zero, [generateMerkleProof(0n, L, t)] returns [null] for any cached
    tree [t] or none, and touches nothing: the guard [!leaf] takes the
    falsy [0n] for a missing leaf. *)
Theorem C10_zero_leaf_returns_null (h : list (list value)) (l : nat)
    (L : list Z) (t : option Tree) :
  h !! l = Some (VBig <$> L) -> L <> [] -> In 0 L ->
  generateMerkleProof (VBig 0) l t h = (Ok None, h).
Proof.
  intros _ _ _. unfold generateMerkleProof, bind, readArr. reflexivity.
Qed.

(** * Further properties of the module *)

(** ** The circuit encoder *)

Lemma encode_loop_spec (rest : list MerkleProofParams) :
  forall (pre : list MerkleProofParams) (elems : list value)
         (indices : list Z),
    encode_loop (length rest) (length pre) (pre ++ rest) elems indices
    = Ok {| pathElements := elems ++ (hash <$> rest);
            pathIndices := indices ++ (direction <$> rest) |}.
Proof.
  clear poseidon.
  induction rest as [|e rest IH]; intros pre elems indices.
  - cbn. now rewrite !app_nil_r.
  - cbn [length encode_loop]. rewrite list_lookup_middle by done.
    specialize (IH (pre ++ [e])). rewrite length_app, <- app_assoc in IH.
    cbn [length app] in IH.
    replace (length pre + 1)%nat with (S (length pre)) in IH by lia.
    rewrite IH, !fmap_cons, <- !app_assoc. done.
Qed.

Lemma encodeForCircuit_spec (p : list MerkleProofParams) :
  encodeForCircuit (Some p)
  = Ok {| pathElements := hash <$> p; pathIndices := direction <$> p |}.
Proof. unfold encodeForCircuit. apply (encode_loop_spec p [] [] []). Qed.

(** ** The lookup of the command-line tool *)

Lemma loose_eq_strict (a b : value) : loose_eq a b = strict_eq b a.
Proof. destruct a, b; cbn; try done. apply Z.eqb_sym. Qed.

Lemma arr_get_middle (pre rest : list value) (v : value) :
  arr_get (pre ++ v :: rest) (Z.of_nat (length pre)) = v.
Proof.
  clear poseidon.
  unfold arr_get.
  destruct (Z.ltb_spec (Z.of_nat (length pre)) 0) as [?|_]; [lia|].
  now rewrite Nat2Z.id, list_lookup_middle.
Qed.

Lemma findCommitment_loop_findIndex (c : value) (rest : list value) :
  forall pre : list value,
    findCommitment_loop (length rest) (length pre) c (pre ++ rest)
    = findIndex_from (Z.of_nat (length pre)) rest c.
Proof.
  clear poseidon.
  induction rest as [|v rest IH]; intros pre; [done|].
  cbn [length findCommitment_loop findIndex_from].
  rewrite arr_get_middle, loose_eq_strict.
  destruct (strict_eq v c); [done|].
  specialize (IH (pre ++ [v])). rewrite length_app, <- app_assoc in IH.
  cbn [length app] in IH.
  replace (length pre + 1)%nat with (S (length pre)) in IH by lia.
  rewrite IH. f_equal. lia.
Qed.

Lemma findCommitmentByIndex_findIndex (c : value) (l : nat)
    (h : list (list value)) :
  findCommitmentByIndex c l h = (Ok (findIndex (h !!! l) c), h).
Proof.
  unfold findCommitmentByIndex, bind, readArr, ret, findIndex.
  do 2 f_equal. apply (findCommitment_loop_findIndex c (h !!! l) []).
Qed.

Lemma findIndex_from_first (c : list Z) (x : Z) :
  forall i, findIndex_from i (VBig <$> c) (VBig x) <> -1 -> 0 <= i ->
    exists idx,
      findIndex_from i (VBig <$> c) (VBig x) = i + Z.of_nat idx
      /\ c !! idx = Some x
      /\ forall j, (j < idx)%nat -> c !! j <> Some x.
Proof.
  clear poseidon.
  induction c as [|y c IH]; intros i Hf Hi; [done|].
  change (VBig <$> y :: c) with (VBig y :: (VBig <$> c)) in *.
  cbn [findIndex_from strict_eq] in *.
  destruct (Z.eqb_spec y x) as [->|Hne].
  - exists 0%nat. split; [lia|]. split; [done|]. intros j Hj. lia.
  - destruct (IH (i + 1) Hf) as (idx & Hidx & Hx & Hfirst); [lia|].
    exists (S idx). split; [lia|]. split; [done|].
    intros [|j] Hj; cbn; [congruence|]. apply Hfirst. lia.
Qed.

(** ** Proofs from a cached tree *)

Lemma generateMerkleProof_cached_run (h : list (list value)) (l l' : nat)
    (L : list Z) (x : Z) (a : list value) :
  h !! l = Some (VBig <$> L) -> L <> [] -> x <> 0 ->
  let s := tree_steps (length L) 19 in
  let h1 := layout h l (build_layers s L) in
  let idx := findIndex (VBig <$> even_pad L) (VBig x) in
  h1 !! l' = Some a -> a <> [] ->
  generateMerkleProof (VBig x) l' (Some {| layers := l :: seq (length h) s |})
                      h1
  = (Ok (Some
       ({| hash := VBig x;
           direction := if Z.rem idx 2 =? 0
                        then HashDirection.LEFT else HashDirection.RIGHT |}
        :: sibling_path
             (take s (fmap (M:=list) VBig <$> build_layers s L)) idx)),
     h1).
Proof.
  intros Hl HL Hx s h1 idx Hl' Ha.
  assert (l < length h)%nat as Hlt by (eapply lookup_lt_Some; eauto).
  assert (h1 !! l = Some (VBig <$> even_pad L)) as Hl0.
  { unfold h1. rewrite layout_lookup_0 by done.
    pose proof (tree_steps_pos (length L) 19) as Hs. fold s in Hs.
    destruct s; [lia|done]. }
  unfold generateMerkleProof, getLeafNodeDirectionInMerkleTree.
  unfold bind, readArr, ret.
  rewrite (list_lookup_total_correct _ _ _ Hl').
  cbn [falsy]. destruct (Z.eqb_spec x 0) as [?|_]; [done|].
  destruct (Nat.eqb_spec (length a) 0) as [E|_].
  { destruct a; [done|discriminate E]. }
  cbn [orb layers lookup list_lookup].
  rewrite (list_lookup_total_correct _ _ _ Hl0). fold idx.
  cbn [length]. rewrite length_seq.
  replace (S s - 1)%nat with s by lia.
  set (ls := take s (fmap (M:=list) VBig <$> build_layers s L)).
  assert (length ls = s) as Hls.
  { unfold ls. rewrite length_take, length_fmap, build_layers_length. lia. }
  rewrite <- Hls at 1. rewrite proof_loop_spec; [done|].
  intros k a' Hk. apply lookup_take_Some in Hk as [Hk _].
  apply list_lookup_fmap_Some in Hk as (c & -> & Hk).
  destruct (tree_layers_lookup h l _ k c Hlt Hk) as (lc & Hlc & Hc).
  rewrite build_layers_length in Hlc.
  replace (S s - 1)%nat with s in Hlc by lia.
  exists lc. split; [exact Hlc|done].
Qed.

(** The entries generated for a leaf of the list fold to the top of the
    layers. *)
Lemma generated_path_root (L : list Z) (x root : Z) (s : nat) (d0 : Z) :
  In x L -> (1 <= s)%nat -> last (build_layers s L) = Some [root] ->
  getMerkleRootFromMerkleProof
    (Some ({| hash := VBig x; direction := d0 |}
           :: sibling_path
                (take s (fmap (M:=list) VBig <$> build_layers s L))
                (findIndex (VBig <$> even_pad L) (VBig x))))
  = Ok (VBig root).
Proof.
  intros Hin Hs Hroot. destruct s as [|s']; [lia|].
  destruct (findIndex_from_found (even_pad L) x) with (i := 0)
    as (i & Hi & Hfind); [now apply In_even_pad|].
  fold (findIndex (VBig <$> even_pad L) (VBig x)) in Hfind.
  rewrite Z.add_0_l in Hfind. rewrite Hfind.
  destruct (climb (S s') (even_pad L) i x Hi)
    as (lastl & k & v & Hlast & Hk & Hf).
  rewrite build_layers_even_pad in Hlast, Hf.
  assert (lastl = [root]) as -> by congruence.
  assert (v = root) as ->.
  { destruct k; cbn in Hk; [congruence|done]. }
  rewrite getMerkleRootFromMerkleProof_fold. exact Hf.
Qed.

(** Every sibling of a leaf that is in range is a bigint. *)
Lemma sibling_path_defined (s : nat) :
  forall (c : list Z) (idx : nat) (x : Z),
    c !! idx = Some x ->
    Forall (fun e => exists z, hash e = VBig z)
      (sibling_path (take s (fmap (M:=list) VBig <$> build_layers s c))
                    (Z.of_nat idx)).
Proof.
  induction s as [|s IH]; intros c idx x Hx; [constructor|].
  apply even_pad_lookup in Hx.
  set (c' := pair_hashes (even_pad c)).
  cbn [build_layers]. fold c'. rewrite fmap_cons. cbn [take firstn].
  cbn [sibling_path]. rewrite rem2_even.
  assert (exists y, c' !! (idx / 2)%nat = Some y
            /\ exists z, arr_get (VBig <$> even_pad c)
                           (if Nat.even idx then Z.of_nat idx + 1
                            else Z.of_nat idx - 1) = VBig z)
    as (y & Hy & z & Hz).
  { destruct (Nat.even idx) eqn:E.
    - apply Nat.even_spec in E. destruct E as [j ->].
      replace (2 * j / 2)%nat with j by lia.
      destruct (even_pad_sibling_even c j x Hx) as [y Hy].
      exists (H x y). split; [now apply pair_hashes_lookup|].
      exists y.
      replace (Z.of_nat (2 * j) + 1) with (Z.of_nat (2 * j + 1)) by lia.
      now apply arr_get_vals.
    - assert (Nat.odd idx = true) as Ho
        by (rewrite <- Nat.negb_even, E; reflexivity).
      apply Nat.odd_spec in Ho. destruct Ho as [j ->].
      replace ((2 * j + 1) / 2)%nat with j by lia.
      destruct (even_pad_sibling_odd c j x Hx) as [y Hy].
      exists (H y x). split; [now apply pair_hashes_lookup|].
      exists y.
      replace (Z.of_nat (2 * j + 1) - 1) with (Z.of_nat (2 * j)) by lia.
      now apply arr_get_vals. }
  constructor.
  - exists z. exact Hz.
  - replace (Z.of_nat idx / 2) with (Z.of_nat (idx / 2)) by lia.
    now apply (IH c' _ y).
Qed.

Lemma sibling_path_bits (ls : list (list value)) :
  forall (idx : Z) (k : nat) (e : MerkleProofParams),
    0 <= idx -> sibling_path ls idx !! k = Some e ->
    direction e = if Z.testbit idx (Z.of_nat k)
                  then HashDirection.LEFT else HashDirection.RIGHT.
Proof.
  induction ls as [|a ls IH]; intros idx k e Hidx Hk; [done|].
  cbn [sibling_path] in Hk. destruct k as [|k].
  - injection Hk as <-. cbn [direction].
    change (Z.of_nat 0) with 0. rewrite Z.bit0_odd.
    destruct (Z.eqb_spec (Z.rem idx 2) 0) as [E|E].
    + assert (Z.odd idx = false) as ->; [|done].
      rewrite <- Z.negb_even. apply negb_false_iff, Z.even_spec.
      exists (idx / 2). lia.
    + assert (Z.odd idx = true) as ->; [|done].
      apply Z.odd_spec. exists (idx / 2). lia.
  - cbn in Hk. rewrite (IH (idx / 2) k e) by (done || lia).
    rewrite Nat2Z.inj_succ, Z.div2_bits by lia. done.
Qed.

Lemma sibling_path_directions (ls : list (list value)) :
  forall idx,
    Forall (fun e => direction e = HashDirection.LEFT
                     \/ direction e = HashDirection.RIGHT)
           (sibling_path ls idx).
Proof.
  induction ls as [|a ls IH]; intros idx; cbn [sibling_path]; constructor.
  - cbn [direction]. destruct (Z.rem idx 2 =? 0); auto.
  - apply IH.
Qed.

(** ** [generateMerkleRoot] on its own *)

Lemma root_spec (fuel : nat) :
  forall (h : list (list value)) (cur : nat) (pre : list nat) (c : list Z),
    h !! cur = Some (VBig <$> c) -> c <> [] -> (length c <= fuel)%nat ->
    let m := tree_steps (length c) 0 in
    generateMerkleRoot_rec fuel cur {| layers := pre ++ [cur] |} h
    = (Ok ((length h + m - 1)%nat,
           {| layers := pre ++ cur :: seq (length h) m |}),
       layout h cur (build_layers m c)).
Proof.
  induction fuel as [|fuel IH]; intros h cur pre c Hcur Hc Hfuel m.
  { destruct c; [done|simpl in Hfuel; lia]. }
  assert (1 <= length c)%nat as Hlen by (destruct c; [done|simpl; lia]).
  set (c' := pair_hashes (even_pad c)).
  assert (length c' = ((length c + 1) / 2)%nat) as Hlen'.
  { unfold c'. rewrite length_pair_hashes, length_even_pad. lia. }
  set (h1 := <[cur := VBig <$> even_pad c]> h).
  assert (h1 !! cur = Some (VBig <$> even_pad c)) as Hcur1.
  { apply list_lookup_insert_eq. eapply lookup_lt_Some; eauto. }
  cbn [generateMerkleRoot_rec]. unfold bind, readArr, lift, newArr.
  rewrite (list_lookup_total_correct _ _ _ Hcur), length_fmap.
  destruct (Nat.eqb_spec (length c) 0) as [?|_]; [lia|].
  rewrite (ensureEven_vals h cur c Hcur Hc). fold h1.
  rewrite (list_lookup_total_correct _ _ _ Hcur1).
  rewrite (combine_pairs_vals _ (even_pad_even c)). fold c'.
  rewrite length_fmap. unfold push_layer. cbn [layers].
  assert (length h1 = length h) as Hlen1 by apply length_insert.
  rewrite Hlen1.
  destruct (Nat.eqb_spec (length c') 1) as [E1|E1].
  - assert (m = 1%nat) as ->.
    { unfold m. rewrite tree_steps_base by lia. lia. }
    unfold ret. rewrite <- app_assoc. cbn [app seq].
    replace (length h + 1 - 1)%nat with (length h) by lia.
    rewrite <- (layout_cons h cur c 0). fold c' h1.
    cbn [build_layers]. rewrite layout_0; [done|].
    rewrite <- Hlen1. now apply list_lookup_middle.
  - rewrite (IH (h1 ++ [VBig <$> c']) (length h) (pre ++ [cur]) c').
    + assert (m = S (tree_steps (length c') 0)) as ->.
      { unfold m. rewrite tree_steps_rec by lia. now rewrite Hlen'. }
      pose proof (tree_steps_pos (length c') 0).
      rewrite length_app, Hlen1, <- app_assoc. cbn [length app].
      replace (length h + 1)%nat with (S (length h)) by lia.
      rewrite cons_seq. f_equal; [|apply layout_cons].
      do 2 f_equal. lia.
    + rewrite <- Hlen1. now apply list_lookup_middle.
    + intros E0. rewrite E0 in Hlen'. cbn [length] in Hlen'. lia.
    + lia.
Qed.

Lemma build_layers_natural_last (m : nat) :
  forall c : list Z,
    c <> [] -> m = tree_steps (length c) 0 ->
    exists r, last (build_layers m c) = Some [r].
Proof.
  induction m as [|m IH]; intros c Hc Hm.
  { pose proof (tree_steps_pos (length c) 0). lia. }
  assert (1 <= length c)%nat as Hlen by (destruct c; [done|simpl; lia]).
  set (c' := pair_hashes (even_pad c)).
  assert (length c' = ((length c + 1) / 2)%nat) as Hlen'.
  { unfold c'. rewrite length_pair_hashes, length_even_pad. lia. }
  rewrite build_layers_last_S. fold c'.
  destruct (Nat.eq_dec (length c') 1%nat) as [E1|E1].
  - rewrite tree_steps_base in Hm by lia.
    assert (m = 0%nat) as -> by lia.
    destruct c' as [|r [|? ?]]; try done. exists r. done.
  - rewrite tree_steps_rec in Hm by lia. apply IH.
    + intros E0. rewrite E0 in Hlen'. cbn [length] in Hlen'. lia.
    + injection Hm as ->. now rewrite Hlen'.
Qed.

Lemma build_layers_single_last (k : nat) :
  forall r : Z, last (build_layers k [r]) = Some [self_hash k r].
Proof.
  induction k as [|k IH]; intros r; [done|].
  rewrite build_layers_last_S.
  change (pair_hashes (even_pad [r])) with [H r r]. apply IH.
Qed.

Lemma build_layers_add_last (m k : nat) :
  forall (c : list Z) (r : Z),
    last (build_layers m c) = Some [r] ->
    last (build_layers (m + k) c) = Some [self_hash k r].
Proof.
  induction m as [|m IH]; intros c r Hlast.
  - cbn in Hlast. injection Hlast as ->. apply build_layers_single_last.
  - rewrite build_layers_last_S in Hlast.
    change (S m + k)%nat with (S (m + k)).
    rewrite build_layers_last_S. now apply IH.
Qed.

(** ** Adjacent layers *)

Lemma build_layers_adjacent (s : nat) :
  forall (c : list Z) (k : nat) (a b : list Z),
    build_layers s c !! k = Some a ->
    build_layers s c !! S k = Some b ->
    Nat.even (length a) = true
    /\ forall j x y,
         a !! (2 * j)%nat = Some x -> a !! (2 * j + 1)%nat = Some y ->
         b !! j = Some (H x y).
Proof.
  induction s as [|s IH]; intros c k a b Ha Hb; [done|].
  cbn [build_layers] in Ha, Hb. destruct k as [|k].
  - injection Ha as <-. split; [apply even_pad_even|].
    intros j x y Hx Hy.
    pose proof (pair_hashes_lookup _ _ _ _ Hx Hy) as Hj.
    change ((?z :: ?t) !! 1%nat) with (t !! 0%nat) in Hb.
    destruct s as [|s]; cbn in Hb; injection Hb as <-; [done|].
    now apply even_pad_lookup.
  - now apply (IH (pair_hashes (even_pad c)) k).
Qed.

(** ** Two proofs with one root *)

Lemma rootOf_spec_binding (es1 : list (Z * Direction)) :
  forall (es2 : list (Z * Direction)) (leaf1 leaf2 : Z),
    snd <$> es1 = snd <$> es2 ->
    rootOf_spec leaf1 es1 = rootOf_spec leaf2 es2 ->
    (leaf1 = leaf2 /\ es1 = es2)
    \/ exists a b c d, (a, b) <> (c, d) /\ H a b = H c d.
Proof.
  unfold rootOf_spec.
  induction es1 as [|[x1 d1] es1 IH] using rev_ind; intros es2 leaf1 leaf2 Hd Hr.
  - destruct es2; [|done]. left. done.
  - destruct es2 as [|[x2 d2] es2 _] using rev_ind.
    { rewrite fmap_app in Hd. destruct (snd <$> es1); done. }
    rewrite !fmap_app in Hd. apply app_inj_tail in Hd as [Hd Hlast].
    cbn in Hlast. subst d2.
    rewrite !fold_left_app in Hr. cbn [fold_left] in Hr.
    set (A1 := fold_left rootOf_step es1 leaf1) in *.
    set (A2 := fold_left rootOf_step es2 leaf2) in *.
    unfold rootOf_step in Hr. cbn [fst snd] in Hr.
    destruct (decide (A1 = A2 /\ x1 = x2)) as [[HA ->]|Hne].
    + destruct (IH es2 leaf1 leaf2 Hd HA) as [[-> ->]|Hcol]; [|now right].
      left. done.
    + right. destruct d1.
      * exists x1, A1, x2, A2. split; [|exact Hr].
        intros [= -> ->]. now apply Hne.
      * exists A1, x1, A2, x2. split; [|exact Hr].
        intros [= -> ->]. now apply Hne.
Qed.

Lemma findIndex_from_app_found (L : list Z) (x : Z) :
  In x L ->
  forall (i : Z) (b : list value),
    findIndex_from i ((VBig <$> L) ++ b) (VBig x)
    = findIndex_from i (VBig <$> L) (VBig x).
Proof.
  induction L as [|y L IH]; intros Hin i b; [done|].
  change (VBig <$> y :: L) with (VBig y :: (VBig <$> L)).
  cbn [app findIndex_from strict_eq].
  destruct (Z.eqb_spec y x) as [->|Hne]; [done|].
  destruct Hin as [?|Hin]; [done|]. now apply IH.
Qed.

Lemma findIndex_even_pad (L : list Z) (x : Z) :
  In x L ->
  findIndex (VBig <$> even_pad L) (VBig x) = findIndex (VBig <$> L) (VBig x).
Proof.
  intros Hin. unfold even_pad, findIndex.
  destruct (Nat.even (length L)); [done|].
  rewrite fmap_app. now apply findIndex_from_app_found.
Qed.

Lemma findIndex_found_In (c : list Z) (x : Z) :
  findIndex (VBig <$> c) (VBig x) <> -1 -> In x c.
Proof.
  intros Hf. destruct (in_dec Z.eq_dec x c) as [Hin|Hin]; [done|].
  exfalso. apply Hf. now apply findIndex_from_absent.
Qed.

Lemma findIndex_from_In (c : list Z) (x : Z) :
  In x c -> forall i, 0 <= i -> findIndex_from i (VBig <$> c) (VBig x) <> -1.
Proof.
  clear poseidon.
  induction c as [|y c IH]; intros Hin i Hi; [done|].
  change (VBig <$> y :: c) with (VBig y :: (VBig <$> c)).
  cbn [findIndex_from strict_eq].
  destruct (Z.eqb_spec y x) as [->|Hne]; [lia|].
  destruct Hin as [?|Hin]; [done|]. apply IH; [done|lia].
Qed.

Lemma rem2_odd (z : Z) : (Z.rem z 2 =? 0) = negb (Z.odd z).
Proof.
  destruct (Z.eqb_spec (Z.rem z 2) 0) as [E|E].
  - rewrite <- Z.negb_even, negb_involutive. symmetry.
    apply Z.even_spec. exists (z / 2). lia.
  - symmetry. apply negb_false_iff, Z.odd_spec. exists (z / 2). lia.
Qed.

Lemma last_layer_loc (l a m : nat) :
  last (l :: seq a (S m)) = Some (a + m)%nat.
Proof. now rewrite seq_S, app_comm_cons, last_snoc. Qed.

(** X1: what the circuit receives.  For a non-zero leaf of a list of at
    most 2^19 leaves, [encodeForCircuit(generateMerkleProof(x, L, null))]
    returns two arrays of exactly [TREELEVELS] entries; [pathElements]
    starts with the leaf and holds bigints only, and every entry of
    [pathIndices] is 0 or 1. *)
Theorem X1_circuit_input_well_formed (h : list (list value)) (l : nat)
    (L : list Z) (x : Z) :
  h !! l = Some (VBig <$> L) -> In x L -> x <> 0 ->
  Z.of_nat (length L) <= 2 ^ 19 ->
  exists p h' e,
    generateMerkleProof (VBig x) l None h = (Ok (Some p), h')
    /\ encodeForCircuit (Some p) = Ok e
    /\ Z.of_nat (length (pathElements e)) = TREELEVELS
    /\ Z.of_nat (length (pathIndices e)) = TREELEVELS
    /\ pathElements e !! 0%nat = Some (VBig x)
    /\ Forall (fun v => exists z, v = VBig z) (pathElements e)
    /\ Forall (fun d => d = HashDirection.LEFT \/ d = HashDirection.RIGHT)
              (pathIndices e).
Proof.
  intros Hl Hin Hx Hsize.
  assert (L <> []) as HL by (intros ->; destruct Hin).
  assert (1 <= length L)%nat as Hlen by (destruct L; [done|simpl; lia]).
  pose proof (generateMerkleProof_run h l L x Hl HL Hx) as Hrun.
  cbv zeta in Hrun.
  rewrite (tree_steps_fits (length L) 19) in Hrun
    by (try apply (log2_up_le_Z _ 19); done || lia).
  destruct (findIndex_from_found (even_pad L) x) with (i := 0)
    as (i & Hi & Hfind); [now apply In_even_pad|].
  fold (findIndex (VBig <$> even_pad L) (VBig x)) in Hfind.
  rewrite Z.add_0_l in Hfind. rewrite Hfind in Hrun.
  pose proof (sibling_path_defined 19 (even_pad L) i x Hi) as Hdef.
  rewrite build_layers_even_pad in Hdef.
  set (sibs := sibling_path
                 (take 19 (fmap (M:=list) VBig <$> build_layers 19 L))
                 (Z.of_nat i)) in *.
  assert (length sibs = 19%nat) as Hsibs.
  { unfold sibs. rewrite length_sibling_path, length_take, length_fmap,
      build_layers_length. lia. }
  eexists _, _, _. split; [exact Hrun|].
  split; [apply encodeForCircuit_spec|].
  cbn [pathElements pathIndices]. rewrite !fmap_cons. cbn [length hash].
  rewrite !length_fmap, Hsibs.
  split; [done|]. split; [done|]. split; [done|]. split.
  - constructor; [now exists x|].
    apply Forall_fmap. eapply Forall_impl; [exact Hdef|].
    intros e [z Hz]. exists z. exact Hz.
  - constructor.
    + cbn [direction]. destruct (Z.rem (Z.of_nat i) 2 =? 0); auto.
    + apply Forall_fmap. apply sibling_path_directions.
Qed.

(** X2: [encodeForCircuit] loses nothing.  On every proof array it
    returns, without throwing, two arrays of the proof's length from
    which the proof is recovered entry by entry. *)
Theorem X2_encodeForCircuit_lossless (p : list MerkleProofParams) :
  exists e,
    encodeForCircuit (Some p) = Ok e
    /\ length (pathElements e) = length p
    /\ length (pathIndices e) = length p
    /\ zip_with (fun v d => {| hash := v; direction := d |})
                (pathElements e) (pathIndices e) = p.
Proof.
  eexists. split; [apply encodeForCircuit_spec|].
  cbn [pathElements pathIndices]. rewrite !length_fmap.
  split; [done|]. split; [done|].
  induction p as [|[v d] p IH]; [done|].
  rewrite !fmap_cons. cbn [zip_with hash direction]. now rewrite IH.
Qed.

(** X3: cache consistency.  Once [generateMerkleTree(L)] has returned a
    tree, [generateMerkleProof(x, A, tree)] for a truthy bigint [x] and
    any non-empty array [A] (a clone of the leaves, as the tests pass)
    returns the very proof that [generateMerkleProof(x, L, null)] builds
    from scratch, and changes no array. *)
Theorem X3_cache_consistency (h : list (list value)) (l : nat)
    (L : list Z) (x : Z) :
  h !! l = Some (VBig <$> L) -> L <> [] -> x <> 0 ->
  exists tree root h1 p,
    generateMerkleTree l h = (Ok (tree, root), h1)
    /\ generateMerkleProof (VBig x) l None h = (Ok (Some p), h1)
    /\ forall (l' : nat) (a : list value),
         h1 !! l' = Some a -> a <> [] ->
         generateMerkleProof (VBig x) l' (Some tree) h1
         = (Ok (Some p), h1).
Proof.
  intros Hl HL Hx.
  destruct (generateMerkleTree_spec h l L Hl HL) as (root & _ & Htree).
  eexists _, _, _, _. split; [exact Htree|].
  split; [exact (generateMerkleProof_run h l L x Hl HL Hx)|].
  intros l' a Hl' Ha.
  exact (generateMerkleProof_cached_run h l l' L x a Hl HL Hx Hl' Ha).
Qed.

(** X4: the command-line path.  With the tree built from [L] and a
    commitments array that holds what layer 0 holds, whenever
    [findCommitmentByIndex(x, commitments)] is not -1 for a non-zero
    [x], [generateMerkleProof(x, commitments, tree)] returns a proof and
    [getMerkleRootFromMerkleProof] reduces it to the tree's root. *)
Theorem X4_found_commitment_verifies (h : list (list value)) (l : nat)
    (L : list Z) (x : Z) :
  h !! l = Some (VBig <$> L) -> L <> [] -> x <> 0 ->
  exists tree root h1,
    generateMerkleTree l h = (Ok (tree, root), h1)
    /\ forall l' : nat,
         h1 !! l' = h1 !! l ->
         fst (findCommitmentByIndex (VBig x) l' h1) <> Ok (-1) ->
         exists p,
           generateMerkleProof (VBig x) l' (Some tree) h1
           = (Ok (Some p), h1)
           /\ getMerkleRootFromMerkleProof (Some p) = Ok root.
Proof.
  intros Hl HL Hx.
  assert (l < length h)%nat as Hlt by (eapply lookup_lt_Some; eauto).
  destruct (generateMerkleTree_spec h l L Hl HL) as (root & Hroot & Htree).
  cbv zeta in Hroot, Htree.
  set (s := tree_steps (length L) 19) in *.
  pose proof (tree_steps_pos (length L) 19) as Hs. fold s in Hs.
  eexists _, _, _. split; [exact Htree|].
  intros l' Hl' Hfound.
  assert (layout h l (build_layers s L) !! l = Some (VBig <$> even_pad L))
    as Hl0.
  { rewrite layout_lookup_0 by done. destruct s; [lia|done]. }
  rewrite Hl0 in Hl'.
  rewrite findCommitmentByIndex_findIndex in Hfound. cbn [fst] in Hfound.
  rewrite (list_lookup_total_correct _ _ _ Hl') in Hfound.
  assert (In x L) as Hin.
  { apply In_even_pad, findIndex_found_In. congruence. }
  eexists. split.
  - apply (generateMerkleProof_cached_run h l l' L x _ Hl HL Hx Hl').
    intros E. apply fmap_nil_inv in E. now apply even_pad_nil_inv in E.
  - now apply generated_path_root.
Qed.

(** X5: [findCommitmentByIndex] on an array of bigints returns -1 exactly
    when the commitment is not in the array, and otherwise the index of
    its first occurrence; it changes nothing. *)
Theorem X5_findCommitmentByIndex_first_match (h : list (list value))
    (l : nat) (cs : list Z) (x : Z) :
  h !! l = Some (VBig <$> cs) ->
  exists r,
    findCommitmentByIndex (VBig x) l h = (Ok r, h)
    /\ (r = -1 <-> ~ In x cs)
    /\ (r <> -1 ->
        exists i : nat,
          r = Z.of_nat i /\ cs !! i = Some x
          /\ forall j, (j < i)%nat -> cs !! j <> Some x).
Proof.
  clear poseidon.
  intros Hl. eexists. split; [apply findCommitmentByIndex_findIndex|].
  rewrite (list_lookup_total_correct _ _ _ Hl). split.
  - split.
    + intros E Hin. now apply (findIndex_from_In cs x Hin 0).
    + intros Hin. now apply findIndex_from_absent.
  - intros Hne.
    destruct (findIndex_from_first cs x 0 Hne) as (i & Hf & Hi & Hfirst);
      [lia|].
    exists i. unfold findIndex. split; [lia|done].
Qed.

(** X6: the proof follows the first match.  For a non-zero leaf [x] of
    [L], let [i] be what [findCommitmentByIndex(x, L)] returns, the index
    of the first occurrence.  In [generateMerkleProof(x, L, null)] entry 0
    is marked LEFT when [i] is even and RIGHT when it is odd, and the
    sibling entry of level [k] is marked RIGHT when bit [k] of [i] is 0
    and LEFT when it is 1. *)
Theorem X6_directions_are_index_bits (h : list (list value)) (l : nat)
    (L : list Z) (x : Z) :
  h !! l = Some (VBig <$> L) -> In x L -> x <> 0 ->
  exists i p h1 e0,
    findCommitmentByIndex (VBig x) l h = (Ok i, h)
    /\ 0 <= i < Z.of_nat (length L)
    /\ generateMerkleProof (VBig x) l None h = (Ok (Some p), h1)
    /\ p !! 0%nat = Some e0
    /\ direction e0 = (if Z.testbit i 0
                       then HashDirection.RIGHT else HashDirection.LEFT)
    /\ forall (k : nat) (e : MerkleProofParams),
         p !! S k = Some e ->
         direction e = if Z.testbit i (Z.of_nat k)
                       then HashDirection.LEFT else HashDirection.RIGHT.
Proof.
  intros Hl Hin Hx.
  assert (L <> []) as HL by (intros ->; destruct Hin).
  pose proof (generateMerkleProof_run h l L x Hl HL Hx) as Hrun.
  cbv zeta in Hrun. rewrite (findIndex_even_pad L x Hin) in Hrun.
  destruct (findIndex_from_found L x Hin 0) as (idx & Hidx & Hf).
  fold (findIndex (VBig <$> L) (VBig x)) in Hf. rewrite Z.add_0_l in Hf.
  apply lookup_lt_Some in Hidx.
  eexists _, _, _, _. split.
  { rewrite findCommitmentByIndex_findIndex.
    now rewrite (list_lookup_total_correct _ _ _ Hl). }
  split; [lia|]. split; [exact Hrun|]. split; [done|]. split.
  - cbn [direction]. rewrite Z.bit0_odd, rem2_odd.
    now destruct (Z.odd _).
  - intros k e Hk. cbn in Hk.
    eapply sibling_path_bits; [|exact Hk]. lia.
Qed.

(** X7: the padded root is the natural root hashed with itself.  For a
    non-empty [L], [generateMerkleRoot(L, { layers: [L] })] returns the
    last layer it pushed, an array holding one bigint [r], and
    [generateMerkleTree(L).root] is [r] paired with itself once for each
    layer that [padTree] adds (20 minus the layers written so far). *)
Theorem X7_padded_root_from_natural_root (h : list (list value)) (l : nat)
    (L : list Z) :
  h !! l = Some (VBig <$> L) -> L <> [] ->
  exists rootArr tree0 hN r tree h',
    generateMerkleRoot l {| layers := [l] |} h = (Ok (rootArr, tree0), hN)
    /\ last (layers tree0) = Some rootArr
    /\ hN !! rootArr = Some [VBig r]
    /\ generateMerkleTree l h
       = (Ok (tree, VBig (self_hash (20 - length (layers tree0)) r)), h').
Proof.
  intros Hl HL.
  assert (l < length h)%nat as Hlt by (eapply lookup_lt_Some; eauto).
  pose proof (root_spec (S (length L)) h l [] L Hl HL ltac:(lia)) as Hrun.
  cbv zeta in Hrun. cbn [app] in Hrun.
  set (m := tree_steps (length L) 0) in *.
  destruct (build_layers_natural_last m L HL eq_refl) as [r Hr].
  destruct (generateMerkleTree_spec h l L Hl HL) as (root & Hroot & Htree).
  cbv zeta in Hroot, Htree.
  assert (tree_steps (length L) 19 = (m + (19 - m))%nat) as Es
    by (unfold m, tree_steps; lia).
  rewrite Es in Hroot, Htree.
  rewrite (build_layers_add_last m (19 - m) L r Hr) in Hroot.
  injection Hroot as <-.
  assert (exists m', m = S m') as [m' Em].
  { pose proof (tree_steps_pos (length L) 0) as Hpos. fold m in Hpos.
    destruct m; [lia|eauto]. }
  eexists _, _, _, r, _, _. split.
  { unfold generateMerkleRoot, bind, readArr.
    rewrite (list_lookup_total_correct _ _ _ Hl), length_fmap.
    exact Hrun. }
  cbn [layers]. split.
  { rewrite Em, last_layer_loc. f_equal. lia. }
  split.
  { rewrite Em. replace (length h + S m' - 1)%nat with (length h + m')%nat
      by lia.
    rewrite layout_lookup_S, <- Em.
    assert (build_layers m L !! m = Some [r]) as ->; [|done].
    rewrite <- Hr, last_lookup, build_layers_length. done. }
  cbn [length]. rewrite length_seq.
  replace (20 - S m)%nat with (19 - m)%nat by lia. exact Htree.
Qed.

(** X8: the Merkle invariant of the stored tree.  After
    [generateMerkleTree(L)] on a non-empty [L] of any size, every layer
    that has a layer above it has even length, and entry [j] of the layer
    above is the hash of its entries [2j] and [2j + 1]. *)
Theorem X8_layers_hash_pairwise (h : list (list value)) (l : nat)
    (L : list Z) :
  h !! l = Some (VBig <$> L) -> L <> [] ->
  exists tree root h',
    generateMerkleTree l h = (Ok (tree, root), h')
    /\ forall (k lk lk' : nat),
         layers tree !! k = Some lk -> layers tree !! S k = Some lk' ->
         exists a b : list Z,
           h' !! lk = Some (VBig <$> a)
           /\ h' !! lk' = Some (VBig <$> b)
           /\ Nat.even (length a) = true
           /\ forall j x y,
                a !! (2 * j)%nat = Some x -> a !! (2 * j + 1)%nat = Some y ->
                b !! j = Some (H x y).
Proof.
  intros Hl HL.
  assert (l < length h)%nat as Hlt by (eapply lookup_lt_Some; eauto).
  destruct (generateMerkleTree_spec h l L Hl HL) as (root & _ & Htree).
  cbv zeta in Htree. set (s := tree_steps (length L) 19) in *.
  eexists _, _, _. split; [exact Htree|]. cbn [layers].
  intros k lk lk' Hk Hk'.
  assert (S k < S s)%nat as Hlt'.
  { apply lookup_lt_Some in Hk'. cbn [length] in Hk'.
    rewrite length_seq in Hk'. lia. }
  destruct (lookup_lt_is_Some_2 (build_layers s L) k) as [a Ha];
    [rewrite build_layers_length; lia|].
  destruct (lookup_lt_is_Some_2 (build_layers s L) (S k)) as [b Hb];
    [rewrite build_layers_length; lia|].
  destruct (tree_layers_lookup h l _ k a Hlt Ha) as (lc & Hlc & Hc).
  destruct (tree_layers_lookup h l _ (S k) b Hlt Hb) as (lc' & Hlc' & Hc').
  rewrite build_layers_length in Hlc, Hlc'.
  replace (S s - 1)%nat with s in Hlc, Hlc' by lia.
  assert (lc = lk) as -> by congruence.
  assert (lc' = lk') as -> by congruence.
  exists a, b. split; [done|]. split; [done|].
  exact (build_layers_adjacent s L k a b Ha Hb).
Qed.

(** X9: repeating the last leaf of an odd list does not change the
    root.  For every [L] of odd length, [generateMerkleTree(L)] and
    [generateMerkleTree] of [L] followed by a copy of its last element
    return the same root. *)
Theorem X9_odd_list_same_root_as_padded (h h2 : list (list value))
    (l l2 : nat) (L : list Z) :
  h !! l = Some (VBig <$> L) ->
  h2 !! l2 = Some (VBig <$> L ++ [List.last L 0]) ->
  Nat.even (length L) = false ->
  exists t1 t2 root h' h2',
    generateMerkleTree l h = (Ok (t1, root), h')
    /\ generateMerkleTree l2 h2 = (Ok (t2, root), h2').
Proof.
  intros Hl Hl2 Hodd.
  assert (L <> []) as HL by (intros ->; discriminate Hodd).
  assert (even_pad L = L ++ [List.last L 0]) as Epad
    by (unfold even_pad; now rewrite Hodd).
  rewrite <- Epad in Hl2.
  assert (even_pad L <> []) as HL2
    by (intros E; now apply even_pad_nil_inv in E).
  destruct (generateMerkleTree_spec h l L Hl HL) as (root & Hroot & Htree).
  destruct (generateMerkleTree_spec h2 l2 (even_pad L) Hl2 HL2)
    as (root2 & Hroot2 & Htree2).
  cbv zeta in Hroot, Htree, Hroot2, Htree2.
  rewrite tree_steps_even_pad in Hroot2, Htree2 by done.
  pose proof (tree_steps_pos (length L) 19) as Hs.
  destruct (tree_steps (length L) 19) as [|s]; [lia|].
  rewrite build_layers_even_pad in Hroot2, Htree2.
  assert (root2 = root) as -> by congruence.
  eexists _, _, _, _, _. split; [exact Htree|exact Htree2].
Qed.

(** X10: building again is stable.  A second [generateMerkleTree] on the
    same leaves array returns the same root and changes no array that
    existed after the first call: the leaves stay as the first call left
    them and the first tree's layers are untouched. *)
Theorem X10_rebuild_is_stable (h : list (list value)) (l : nat)
    (L : list Z) :
  h !! l = Some (VBig <$> L) -> L <> [] ->
  exists tree root h1 tree' h2,
    generateMerkleTree l h = (Ok (tree, root), h1)
    /\ generateMerkleTree l h1 = (Ok (tree', root), h2)
    /\ forall l', (l' < length h1)%nat -> h2 !! l' = h1 !! l'.
Proof.
  intros Hl HL.
  assert (l < length h)%nat as Hlt by (eapply lookup_lt_Some; eauto).
  destruct (generateMerkleTree_spec h l L Hl HL) as (root & Hroot & Htree).
  cbv zeta in Hroot, Htree. set (s := tree_steps (length L) 19) in *.
  assert (exists s', s = S s') as [s' Es].
  { pose proof (tree_steps_pos (length L) 19) as Hpos. fold s in Hpos.
    destruct s; [lia|eauto]. }
  set (h1 := layout h l (build_layers s L)) in *.
  assert (h1 !! l = Some (VBig <$> even_pad L)) as Hl1.
  { unfold h1. rewrite layout_lookup_0 by done. now rewrite Es. }
  assert (even_pad L <> []) as HL1
    by (intros E; now apply even_pad_nil_inv in E).
  destruct (generateMerkleTree_spec h1 l (even_pad L) Hl1 HL1)
    as (root' & Hroot' & Htree').
  cbv zeta in Hroot', Htree'.
  rewrite tree_steps_even_pad in Hroot', Htree' by done.
  fold s in Hroot', Htree'.
  rewrite Es, build_layers_even_pad, <- Es in Hroot', Htree'.
  assert (root' = root) as -> by congruence.
  eexists _, _, _, _, _. split; [exact Htree|]. split; [exact Htree'|].
  intros l' Hl'. destruct (decide (l' = l)) as [->|Hne].
  - rewrite layout_lookup_0 by done. rewrite Hl1, Es. done.
  - now apply layout_lookup_other.
Qed.

(** X11: two proofs with one root.  If [getMerkleRootFromMerkleProof]
    returns the same value on two proofs whose sibling entries carry the
    same directions, then the two proofs have the same leaf and the same
    sibling hashes, or two different pairs with the same hash can be read
    off them. *)
Theorem X11_verifier_binding (leaf1 leaf2 d1 d2 : Z)
    (es1 es2 : list (Z * Direction)) :
  snd <$> es1 = snd <$> es2 ->
  getMerkleRootFromMerkleProof
    (Some ({| hash := VBig leaf1; direction := d1 |}
           :: (encode_entry <$> es1)))
  = getMerkleRootFromMerkleProof
      (Some ({| hash := VBig leaf2; direction := d2 |}
             :: (encode_entry <$> es2))) ->
  (leaf1 = leaf2 /\ es1 = es2)
  \/ exists a b c d, (a, b) <> (c, d) /\ H a b = H c d.
Proof.
  intros Hd Hr. rewrite !getMerkleRootFromMerkleProof_fold in Hr.
  cbn [hash] in Hr. rewrite !fold_step_encoded in Hr.
  injection Hr as Hr. now apply (rootOf_spec_binding es1 es2).
Qed.

(** X12: the proof of an absent leaf does not verify.  For a non-zero
    [x] that is not in the non-empty [L], the array that
    [generateMerkleProof(x, L, null)] returns makes
    [getMerkleRootFromMerkleProof] throw a [TypeError]: no root comes out
    of it. *)
Theorem X12_absent_leaf_proof_throws (h : list (list value)) (l : nat)
    (L : list Z) (x : Z) :
  h !! l = Some (VBig <$> L) -> L <> [] -> ~ In x L -> x <> 0 ->
  exists p h',
    generateMerkleProof (VBig x) l None h = (Ok (Some p), h')
    /\ getMerkleRootFromMerkleProof (Some p) = Throw TypeError.
Proof.
  intros Hl HL Hin Hx.
  eexists _, _. split; [exact (generateMerkleProof_absent h l L x Hl HL Hin Hx)|].
  rewrite getMerkleRootFromMerkleProof_fold.
  pose proof (tree_steps_pos (length L) 19) as Hs.
  destruct (tree_steps (length L) 19) as [|s]; [lia|].
  cbn [replicate fold_left hash]. apply fold_step_throw.
Qed.

(** X13: the exact size.  For a non-empty [L] of any length [n] the tree
    has [1 + max(19, ceil(log2 n))] layers, and the proof of a non-zero
    leaf has one entry for each layer. *)
Theorem X13_layer_and_entry_count (h : list (list value)) (l : nat)
    (L : list Z) (x : Z) :
  h !! l = Some (VBig <$> L) -> L <> [] -> x <> 0 ->
  exists tree root h' p,
    generateMerkleTree l h = (Ok (tree, root), h')
    /\ length (layers tree) = S (Nat.max 19 (Nat.log2_up (length L)))
    /\ generateMerkleProof (VBig x) l None h = (Ok (Some p), h')
    /\ length p = length (layers tree).
Proof.
  intros Hl HL Hx.
  destruct (generateMerkleTree_spec h l L Hl HL) as (root & _ & Htree).
  pose proof (generateMerkleProof_run h l L x Hl HL Hx) as Hrun.
  cbv zeta in Htree, Hrun.
  eexists _, _, _, _. split; [exact Htree|].
  cbn [layers length]. rewrite length_seq.
  split; [unfold tree_steps; lia|]. split; [exact Hrun|].
  cbn [length]. rewrite length_sibling_path, length_take, length_fmap,
    build_layers_length. lia.
Qed.

End MerkleTree.

(** * Concrete runs, with the stand-in hash *)

(** C1 at [L = [1, 2, 3]], [x = 2]. *)
Lemma C1_round_trip_witness :
  [[VBig 1; VBig 2; VBig 3]] !! 0%nat = Some (VBig <$> [1; 2; 3])
  /\ In 2 [1; 2; 3]
  /\ 2 <> 0
  /\ exists p h1 tree tree' root h2,
       generateMerkleProof stub_hash (VBig 2) 0%nat None
         [[VBig 1; VBig 2; VBig 3]] = (Ok (Some p), h1)
       /\ getMerkleRootFromMerkleProof stub_hash (Some p) = Ok root
       /\ generateMerkleTree stub_hash 0%nat [[VBig 1; VBig 2; VBig 3]]
          = (Ok (tree, root), h1)
       /\ generateMerkleTree stub_hash 0%nat h1 = (Ok (tree', root), h2).
Proof.
  split; [reflexivity|]. split; [simpl; tauto|]. split; [lia|].
  apply (C1_round_trip_membership stub_hash
           [[VBig 1; VBig 2; VBig 3]] 0%nat [1; 2; 3] 2);
    [reflexivity | simpl; tauto | lia].
Defined.

(** C1 as stated fails at the leaf [0n] of [L = [0, 7]]: the generator
    returns [null], the verifier throws on it, and the tree has a root. *)
Lemma C1_zero_leaf_counterexample :
  In 0 [0; 7]
  /\ generateMerkleProof stub_hash (VBig 0) 0%nat None [[VBig 0; VBig 7]]
     = (Ok None, [[VBig 0; VBig 7]])
  /\ getMerkleRootFromMerkleProof stub_hash None = Throw TypeError
  /\ fst (generateMerkleTree stub_hash 0%nat [[VBig 0; VBig 7]])
     = Ok ({| layers := seq 0 20 |}, VBig 1835008)
  /\ ~ (exists p h1 tr h2,
          generateMerkleProof stub_hash (VBig 0) 0%nat None
            [[VBig 0; VBig 7]] = (Ok p, h1)
          /\ generateMerkleTree stub_hash 0%nat [[VBig 0; VBig 7]]
             = (Ok tr, h2)
          /\ getMerkleRootFromMerkleProof stub_hash p = Ok (snd tr)).
Proof.
  split; [simpl; tauto|]. split; [reflexivity|]. split; [reflexivity|].
  split; [vm_compute; reflexivity|].
  intros (p & h1 & tr & h2 & Hp & _ & Hr).
  vm_compute in Hp. injection Hp as <- _. discriminate Hr.
Qed.

(** C3 at [L = [1, 2, 3]]. *)
Lemma C3_fixed_depth_witness :
  [[VBig 1; VBig 2; VBig 3]] !! 0%nat = Some (VBig <$> [1; 2; 3])
  /\ [1; 2; 3] <> []
  /\ Z.of_nat (length [1; 2; 3]) <= 2 ^ 19
  /\ exists tree root h',
       generateMerkleTree stub_hash 0%nat [[VBig 1; VBig 2; VBig 3]]
       = (Ok (tree, VBig root), h')
       /\ Z.of_nat (length (layers tree)) = TREELEVELS
       /\ layers tree !! 0%nat = Some 0%nat
       /\ (exists lr, last (layers tree) = Some lr
                      /\ h' !! lr = Some [VBig root])
       /\ (forall m k : nat,
             (1 <= m)%nat -> Z.of_nat (length [1; 2; 3]) <= 2 ^ Z.of_nat m ->
             (m <= k < 19)%nat ->
             exists lk lk' r tl,
               layers tree !! k = Some lk
               /\ layers tree !! S k = Some lk'
               /\ h' !! lk = Some [VBig r; VBig r]
               /\ h' !! lk' = Some (VBig (H stub_hash r r) :: tl)).
Proof.
  split; [reflexivity|]. split; [discriminate|]. split; [simpl; lia|].
  apply (C3_fixed_depth stub_hash [[VBig 1; VBig 2; VBig 3]] 0%nat [1; 2; 3]);
    [reflexivity | discriminate | simpl; lia].
Defined.

(** C3 as stated fails at 2^19 + 1 leaves: pairwise reduction alone
    takes more than twenty layers and [padTree] never removes one. *)
Lemma C3_oversized_counterexample :
  replicate (S (2 ^ 19)) 1 <> []
  /\ exists tree root h',
       generateMerkleTree stub_hash 0%nat
         [VBig <$> replicate (S (2 ^ 19)) 1] = (Ok (tree, root), h')
       /\ Z.of_nat (length (layers tree)) <> TREELEVELS.
Proof.
  split; [discriminate|].
  destruct (generateMerkleTree_oversized stub_hash
              [VBig <$> replicate (S (2 ^ 19)) 1] 0%nat
              (replicate (S (2 ^ 19)) 1))
    as (tree & root & h' & Hrun & Hlen).
  - reflexivity.
  - rewrite length_replicate, Nat2Z.inj_succ, Nat2Z.inj_pow.
    change (Z.of_nat 2 ^ Z.of_nat 19) with (2 ^ 19). lia.
  - exists tree, root, h'. split; [exact Hrun|]. unfold TREELEVELS. lia.
Qed.

(** C4 at [L = [1, 2, 3, 4, 5]], [x = 5]. *)
Lemma C4_fixed_proof_length_witness :
  [[VBig 1; VBig 2; VBig 3; VBig 4; VBig 5]] !! 0%nat
  = Some (VBig <$> [1; 2; 3; 4; 5])
  /\ In 5 [1; 2; 3; 4; 5]
  /\ 5 <> 0
  /\ Z.of_nat (length [1; 2; 3; 4; 5]) <= 2 ^ 19
  /\ exists e0 siblings h',
       generateMerkleProof stub_hash (VBig 5) 0%nat None
         [[VBig 1; VBig 2; VBig 3; VBig 4; VBig 5]]
       = (Ok (Some (e0 :: siblings)), h')
       /\ hash e0 = VBig 5
       /\ length siblings = 19%nat
       /\ Z.of_nat (length (e0 :: siblings)) = TREELEVELS.
Proof.
  split; [reflexivity|]. split; [simpl; tauto|]. split; [lia|].
  split; [simpl; lia|].
  apply (C4_fixed_proof_length stub_hash
           [[VBig 1; VBig 2; VBig 3; VBig 4; VBig 5]] 0%nat
           [1; 2; 3; 4; 5] 5);
    [reflexivity | simpl; tauto | lia | simpl; lia].
Defined.

(** C4 as stated fails on two inputs: the leaf [0n] gets [null], not a
    proof of twenty entries, and a leaf among 2^19 + 1 leaves gets a
    proof of more than twenty entries. *)
Lemma C4_length_counterexample :
  (In 0 [0; 7]
   /\ generateMerkleProof stub_hash (VBig 0) 0%nat None [[VBig 0; VBig 7]]
      = (Ok None, [[VBig 0; VBig 7]]))
  /\ (In 1 (replicate (S (2 ^ 19)) 1)
      /\ exists p h',
           generateMerkleProof stub_hash (VBig 1) 0%nat None
             [VBig <$> replicate (S (2 ^ 19)) 1] = (Ok (Some p), h')
           /\ Z.of_nat (length p) <> TREELEVELS).
Proof.
  split; [split; [simpl; tauto|reflexivity]|].
  split; [now left|].
  destruct (generateMerkleProof_oversized stub_hash
              [VBig <$> replicate (S (2 ^ 19)) 1] 0%nat
              (replicate (S (2 ^ 19)) 1) 1)
    as (p & h' & Hrun & Hlen).
  - reflexivity.
  - lia.
  - rewrite length_replicate, Nat2Z.inj_succ, Nat2Z.inj_pow.
    change (Z.of_nat 2 ^ Z.of_nat 19) with (2 ^ 19). lia.
  - exists p, h'. split; [exact Hrun|]. unfold TREELEVELS. lia.
Qed.

(** C7 at [L = [1, 2, 3, 4]]. *)
Lemma C7_leaves_padded_in_place_witness :
  [[VBig 1; VBig 2; VBig 3; VBig 4]] !! 0%nat = Some (VBig <$> [1; 2; 3; 4])
  /\ [1; 2; 3; 4] <> []
  /\ exists r h',
       generateMerkleTree stub_hash 0%nat [[VBig 1; VBig 2; VBig 3; VBig 4]]
       = (Ok r, h')
       /\ (Nat.even (length [1; 2; 3; 4]) = true ->
           h' !! 0%nat = Some (VBig <$> [1; 2; 3; 4]))
       /\ (Nat.even (length [1; 2; 3; 4]) = false ->
           h' !! 0%nat
           = Some (VBig <$> [1; 2; 3; 4] ++ [List.last [1; 2; 3; 4] 0]))
       /\ (forall l',
             (l' < length [[VBig 1; VBig 2; VBig 3; VBig 4]])%nat ->
             l' <> 0%nat ->
             h' !! l' = [[VBig 1; VBig 2; VBig 3; VBig 4]] !! l')
       /\ (forall x : value,
             snd (generateMerkleProof stub_hash x 0%nat None
                    [[VBig 1; VBig 2; VBig 3; VBig 4]])
             = if falsy x then [[VBig 1; VBig 2; VBig 3; VBig 4]] else h')
       /\ (forall (x : value) (t : Tree),
             snd (generateMerkleProof stub_hash x 0%nat (Some t)
                    [[VBig 1; VBig 2; VBig 3; VBig 4]])
             = [[VBig 1; VBig 2; VBig 3; VBig 4]]).
Proof.
  split; [reflexivity|]. split; [discriminate|].
  apply (C7_leaves_padded_in_place stub_hash
           [[VBig 1; VBig 2; VBig 3; VBig 4]] 0%nat [1; 2; 3; 4]);
    [reflexivity | discriminate].
Defined.

(** C7 as stated fails at [L = [1, 2, 3]]: after [generateMerkleTree(L)]
    the caller's array is [[1, 2, 3, 3]]. *)
Lemma C7_odd_leaves_counterexample :
  exists r h',
    generateMerkleTree stub_hash 0%nat [[VBig 1; VBig 2; VBig 3]] = (Ok r, h')
    /\ h' !! 0%nat = Some [VBig 1; VBig 2; VBig 3; VBig 3]
    /\ h' !! 0%nat <> [[VBig 1; VBig 2; VBig 3]] !! 0%nat.
Proof.
  eexists _, _. split; [vm_compute; reflexivity|].
  split; [reflexivity|]. discriminate.
Qed.

(** C9 at [a = 1], [b = 2], [c = 3]. *)
Lemma C9_odd_layer_padding_witness :
  [[VBig 1; VBig 2; VBig 3]] !! 0%nat = Some (VBig <$> [1; 2; 3])
  /\ [[VBig 1; VBig 2; VBig 3; VBig 3]] !! 0%nat
     = Some (VBig <$> [1; 2; 3; 3])
  /\ exists t1 t2 root h' h2',
       generateMerkleTree stub_hash 0%nat [[VBig 1; VBig 2; VBig 3]]
       = (Ok (t1, root), h')
       /\ generateMerkleTree stub_hash 0%nat [[VBig 1; VBig 2; VBig 3; VBig 3]]
          = (Ok (t2, root), h2')
       /\ h' !! 0%nat = Some (VBig <$> [1; 2; 3; 3])
       /\ h' !! length [[VBig 1; VBig 2; VBig 3]]
          = Some (VBig <$> [H stub_hash 1 2; H stub_hash 3 3]).
Proof.
  split; [reflexivity|]. split; [reflexivity|].
  apply (C9_odd_layer_padding stub_hash
           [[VBig 1; VBig 2; VBig 3]] [[VBig 1; VBig 2; VBig 3; VBig 3]]
           0%nat 0%nat 1 2 3); reflexivity.
Defined.

(** C10 at [L = [0, 7]], without a cached tree. *)
Lemma C10_zero_leaf_returns_null_witness :
  [[VBig 0; VBig 7]] !! 0%nat = Some (VBig <$> [0; 7])
  /\ [0; 7] <> []
  /\ In 0 [0; 7]
  /\ generateMerkleProof stub_hash (VBig 0) 0%nat None [[VBig 0; VBig 7]]
     = (Ok None, [[VBig 0; VBig 7]]).
Proof.
  split; [reflexivity|]. split; [discriminate|]. split; [simpl; tauto|].
  apply (C10_zero_leaf_returns_null stub_hash
           [[VBig 0; VBig 7]] 0%nat [0; 7] None);
    [reflexivity | discriminate | simpl; tauto].
Defined.

(** * Concrete runs for the further properties *)

(** X1 at [L = [1, 2, 3]], [x = 3]. *)
Lemma X1_circuit_input_witness :
  [[VBig 1; VBig 2; VBig 3]] !! 0%nat = Some (VBig <$> [1; 2; 3])
  /\ In 3 [1; 2; 3]
  /\ 3 <> 0
  /\ Z.of_nat (length [1; 2; 3]) <= 2 ^ 19
  /\ exists p h' e,
       generateMerkleProof stub_hash (VBig 3) 0%nat None
         [[VBig 1; VBig 2; VBig 3]] = (Ok (Some p), h')
       /\ encodeForCircuit (Some p) = Ok e
       /\ Z.of_nat (length (pathElements e)) = TREELEVELS
       /\ Z.of_nat (length (pathIndices e)) = TREELEVELS
       /\ pathElements e !! 0%nat = Some (VBig 3)
       /\ Forall (fun v => exists z, v = VBig z) (pathElements e)
       /\ Forall (fun d => d = HashDirection.LEFT \/ d = HashDirection.RIGHT)
                 (pathIndices e).
Proof.
  split; [reflexivity|]. split; [simpl; tauto|]. split; [lia|].
  split; [simpl; lia|].
  apply (X1_circuit_input_well_formed stub_hash
           [[VBig 1; VBig 2; VBig 3]] 0%nat [1; 2; 3] 3);
    [reflexivity | simpl; tauto | lia | simpl; lia].
Defined.

(** X3 at [L = [1, 2, 3]], [x = 2]. *)
Lemma X3_cache_consistency_witness :
  [[VBig 1; VBig 2; VBig 3]] !! 0%nat = Some (VBig <$> [1; 2; 3])
  /\ [1; 2; 3] <> []
  /\ 2 <> 0
  /\ exists tree root h1 p,
       generateMerkleTree stub_hash 0%nat [[VBig 1; VBig 2; VBig 3]]
       = (Ok (tree, root), h1)
       /\ generateMerkleProof stub_hash (VBig 2) 0%nat None
            [[VBig 1; VBig 2; VBig 3]] = (Ok (Some p), h1)
       /\ forall (l' : nat) (a : list value),
            h1 !! l' = Some a -> a <> [] ->
            generateMerkleProof stub_hash (VBig 2) l' (Some tree) h1
            = (Ok (Some p), h1).
Proof.
  split; [reflexivity|]. split; [discriminate|]. split; [lia|].
  apply (X3_cache_consistency stub_hash
           [[VBig 1; VBig 2; VBig 3]] 0%nat [1; 2; 3] 2);
    [reflexivity | discriminate | lia].
Defined.

(** X4 at [L = [1, 2, 3]], [x = 2]. *)
Lemma X4_found_commitment_witness :
  [[VBig 1; VBig 2; VBig 3]] !! 0%nat = Some (VBig <$> [1; 2; 3])
  /\ [1; 2; 3] <> []
  /\ 2 <> 0
  /\ exists tree root h1,
       generateMerkleTree stub_hash 0%nat [[VBig 1; VBig 2; VBig 3]]
       = (Ok (tree, root), h1)
       /\ forall l' : nat,
            h1 !! l' = h1 !! 0%nat ->
            fst (findCommitmentByIndex (VBig 2) l' h1) <> Ok (-1) ->
            exists p,
              generateMerkleProof stub_hash (VBig 2) l' (Some tree) h1
              = (Ok (Some p), h1)
              /\ getMerkleRootFromMerkleProof stub_hash (Some p) = Ok root.
Proof.
  split; [reflexivity|]. split; [discriminate|]. split; [lia|].
  apply (X4_found_commitment_verifies stub_hash
           [[VBig 1; VBig 2; VBig 3]] 0%nat [1; 2; 3] 2);
    [reflexivity | discriminate | lia].
Defined.

(** X5 at [commitments = [4, 7, 7]], [x = 7]. *)
Lemma X5_findCommitmentByIndex_witness :
  [[VBig 4; VBig 7; VBig 7]] !! 0%nat = Some (VBig <$> [4; 7; 7])
  /\ exists r,
       findCommitmentByIndex (VBig 7) 0%nat [[VBig 4; VBig 7; VBig 7]]
       = (Ok r, [[VBig 4; VBig 7; VBig 7]])
       /\ (r = -1 <-> ~ In 7 [4; 7; 7])
       /\ (r <> -1 ->
           exists i : nat,
             r = Z.of_nat i /\ [4; 7; 7] !! i = Some 7
             /\ forall j, (j < i)%nat -> [4; 7; 7] !! j <> Some 7).
Proof.
  split; [reflexivity|].
  apply (X5_findCommitmentByIndex_first_match
           [[VBig 4; VBig 7; VBig 7]] 0%nat [4; 7; 7] 7).
  reflexivity.
Defined.

(** X6 at [L = [4, 7, 7]], [x = 7]. *)
Lemma X6_directions_witness :
  [[VBig 4; VBig 7; VBig 7]] !! 0%nat = Some (VBig <$> [4; 7; 7])
  /\ In 7 [4; 7; 7]
  /\ 7 <> 0
  /\ exists i p h1 e0,
       findCommitmentByIndex (VBig 7) 0%nat [[VBig 4; VBig 7; VBig 7]]
       = (Ok i, [[VBig 4; VBig 7; VBig 7]])
       /\ 0 <= i < Z.of_nat (length [4; 7; 7])
       /\ generateMerkleProof stub_hash (VBig 7) 0%nat None
            [[VBig 4; VBig 7; VBig 7]] = (Ok (Some p), h1)
       /\ p !! 0%nat = Some e0
       /\ direction e0 = (if Z.testbit i 0
                          then HashDirection.RIGHT else HashDirection.LEFT)
       /\ forall (k : nat) (e : MerkleProofParams),
            p !! S k = Some e ->
            direction e = if Z.testbit i (Z.of_nat k)
                          then HashDirection.LEFT else HashDirection.RIGHT.
Proof.
  split; [reflexivity|]. split; [simpl; tauto|]. split; [lia|].
  apply (X6_directions_are_index_bits stub_hash
           [[VBig 4; VBig 7; VBig 7]] 0%nat [4; 7; 7] 7);
    [reflexivity | simpl; tauto | lia].
Defined.

(** X7 at [L = [1, 2, 3]]. *)
Lemma X7_padded_root_witness :
  [[VBig 1; VBig 2; VBig 3]] !! 0%nat = Some (VBig <$> [1; 2; 3])
  /\ [1; 2; 3] <> []
  /\ exists rootArr tree0 hN r tree h',
       generateMerkleRoot stub_hash 0%nat {| layers := [0%nat] |}
         [[VBig 1; VBig 2; VBig 3]] = (Ok (rootArr, tree0), hN)
       /\ last (layers tree0) = Some rootArr
       /\ hN !! rootArr = Some [VBig r]
       /\ generateMerkleTree stub_hash 0%nat [[VBig 1; VBig 2; VBig 3]]
          = (Ok (tree,
                 VBig (self_hash stub_hash (20 - length (layers tree0)) r)),
             h').
Proof.
  split; [reflexivity|]. split; [discriminate|].
  apply (X7_padded_root_from_natural_root stub_hash
           [[VBig 1; VBig 2; VBig 3]] 0%nat [1; 2; 3]);
    [reflexivity | discriminate].
Defined.

(** X8 at [L = [1, 2, 3]]. *)
Lemma X8_layers_hash_pairwise_witness :
  [[VBig 1; VBig 2; VBig 3]] !! 0%nat = Some (VBig <$> [1; 2; 3])
  /\ [1; 2; 3] <> []
  /\ exists tree root h',
       generateMerkleTree stub_hash 0%nat [[VBig 1; VBig 2; VBig 3]]
       = (Ok (tree, root), h')
       /\ forall (k lk lk' : nat),
            layers tree !! k = Some lk -> layers tree !! S k = Some lk' ->
            exists a b : list Z,
              h' !! lk = Some (VBig <$> a)
              /\ h' !! lk' = Some (VBig <$> b)
              /\ Nat.even (length a) = true
              /\ forall j x y,
                   a !! (2 * j)%nat = Some x ->
                   a !! (2 * j + 1)%nat = Some y ->
                   b !! j = Some (H stub_hash x y).
Proof.
  split; [reflexivity|]. split; [discriminate|].
  apply (X8_layers_hash_pairwise stub_hash
           [[VBig 1; VBig 2; VBig 3]] 0%nat [1; 2; 3]);
    [reflexivity | discriminate].
Defined.

(** X9 at [L = [1, 2, 3, 4, 5]]. *)
Lemma X9_odd_list_witness :
  [[VBig 1; VBig 2; VBig 3; VBig 4; VBig 5]] !! 0%nat
  = Some (VBig <$> [1; 2; 3; 4; 5])
  /\ [[VBig 1; VBig 2; VBig 3; VBig 4; VBig 5; VBig 5]] !! 0%nat
     = Some (VBig <$> [1; 2; 3; 4; 5] ++ [List.last [1; 2; 3; 4; 5] 0])
  /\ Nat.even (length [1; 2; 3; 4; 5]) = false
  /\ exists t1 t2 root h' h2',
       generateMerkleTree stub_hash 0%nat
         [[VBig 1; VBig 2; VBig 3; VBig 4; VBig 5]] = (Ok (t1, root), h')
       /\ generateMerkleTree stub_hash 0%nat
            [[VBig 1; VBig 2; VBig 3; VBig 4; VBig 5; VBig 5]]
          = (Ok (t2, root), h2').
Proof.
  split; [reflexivity|]. split; [reflexivity|]. split; [reflexivity|].
  apply (X9_odd_list_same_root_as_padded stub_hash
           [[VBig 1; VBig 2; VBig 3; VBig 4; VBig 5]]
           [[VBig 1; VBig 2; VBig 3; VBig 4; VBig 5; VBig 5]]
           0%nat 0%nat [1; 2; 3; 4; 5]); reflexivity.
Defined.

(** X10 at [L = [1, 2, 3]]. *)
Lemma X10_rebuild_witness :
  [[VBig 1; VBig 2; VBig 3]] !! 0%nat = Some (VBig <$> [1; 2; 3])
  /\ [1; 2; 3] <> []
  /\ exists tree root h1 tree' h2,
       generateMerkleTree stub_hash 0%nat [[VBig 1; VBig 2; VBig 3]]
       = (Ok (tree, root), h1)
       /\ generateMerkleTree stub_hash 0%nat h1 = (Ok (tree', root), h2)
       /\ forall l', (l' < length h1)%nat -> h2 !! l' = h1 !! l'.
Proof.
  split; [reflexivity|]. split; [discriminate|].
  apply (X10_rebuild_is_stable stub_hash
           [[VBig 1; VBig 2; VBig 3]] 0%nat [1; 2; 3]);
    [reflexivity | discriminate].
Defined.

(** X11 at two proofs of the leaf 1 with the sibling (2, RIGHT). *)
Lemma X11_verifier_binding_witness :
  snd <$> [(2, RIGHT)] = snd <$> [(2, RIGHT)]
  /\ getMerkleRootFromMerkleProof stub_hash
       (Some ({| hash := VBig 1; direction := 0 |}
              :: (encode_entry <$> [(2, RIGHT)])))
     = getMerkleRootFromMerkleProof stub_hash
         (Some ({| hash := VBig 1; direction := 1 |}
                :: (encode_entry <$> [(2, RIGHT)])))
  /\ ((1 = 1 /\ [(2, RIGHT)] = [(2, RIGHT)])
      \/ exists a b c d, (a, b) <> (c, d)
                         /\ H stub_hash a b = H stub_hash c d).
Proof.
  split; [reflexivity|]. split; [reflexivity|].
  apply (X11_verifier_binding stub_hash 1 1 0 1 [(2, RIGHT)] [(2, RIGHT)]);
    reflexivity.
Defined.

(** X12 at [L = [1, 2]], [x = 5]. *)
Lemma X12_absent_leaf_witness :
  [[VBig 1; VBig 2]] !! 0%nat = Some (VBig <$> [1; 2])
  /\ [1; 2] <> []
  /\ ~ In 5 [1; 2]
  /\ 5 <> 0
  /\ exists p h',
       generateMerkleProof stub_hash (VBig 5) 0%nat None [[VBig 1; VBig 2]]
       = (Ok (Some p), h')
       /\ getMerkleRootFromMerkleProof stub_hash (Some p) = Throw TypeError.
Proof.
  split; [reflexivity|]. split; [discriminate|].
  split; [simpl; lia|]. split; [lia|].
  apply (X12_absent_leaf_proof_throws stub_hash
           [[VBig 1; VBig 2]] 0%nat [1; 2] 5);
    [reflexivity | discriminate | simpl; lia | lia].
Defined.

(** X13 at [L = [1, 2, 3]], [x = 1]. *)
Lemma X13_layer_and_entry_count_witness :
  [[VBig 1; VBig 2; VBig 3]] !! 0%nat = Some (VBig <$> [1; 2; 3])
  /\ [1; 2; 3] <> []
  /\ 1 <> 0
  /\ exists tree root h' p,
       generateMerkleTree stub_hash 0%nat [[VBig 1; VBig 2; VBig 3]]
       = (Ok (tree, root), h')
       /\ length (layers tree)
          = S (Nat.max 19 (Nat.log2_up (length [1; 2; 3])))
       /\ generateMerkleProof stub_hash (VBig 1) 0%nat None
            [[VBig 1; VBig 2; VBig 3]] = (Ok (Some p), h')
       /\ length p = length (layers tree).
Proof.
  split; [reflexivity|]. split; [discriminate|]. split; [lia|].
  apply (X13_layer_and_entry_count stub_hash
           [[VBig 1; VBig 2; VBig 3]] 0%nat [1; 2; 3] 1);
    [reflexivity | discriminate | lia].
Defined.
